(** * A backtracking Sudoku solver (sudoku-solver.py), embedded and verified

    The development follows the source file function by function:
    [check_invalid], [generate_candidates], [find_spaces], [solver] and
    [sudoku_solver].  The three readers are pure functions of the board.
    [solver] mutates the board and the queue of empty cells in place; it is
    written in state-passing style, its outcome carrying the final contents
    of both objects.  Module [Heap] repeats [solver] and [sudoku_solver]
    over a store of objects with identity, to speak about the caller's
    array.  Definitions come first, their properties after. *)

From stdpp Require Import base decidable option numbers list gmap fin_sets sorting.

Local Open Scope Z_scope.

(** * Data model *)

(** A board is a list of rows (what [ndarray.tolist] yields; the numpy array
    is read through the same [sudoku[r][c]] indexing).  Python raises
    [IndexError] for an index past the end of a list; the readers below only
    use indices produced by [range(9)] and [range(3)], so on a 9x9 board no
    access is out of range.  Outside that shape the embedding reads a missing
    cell as [inhabitant] and ignores a write; the theorems about boards
    assume [shape9]. *)
Abbreviation board := (list (list Z)) (only parsing).

(** A coordinate [(row, col)], as the tuples stored in [zeroes]. *)
Abbreviation cell := (nat * nat)%type (only parsing).

(** [sudoku[r][c]] *)
Definition get (sudoku : board) (r c : nat) : Z := (sudoku !!! r) !!! c.

(** [sudoku[r][c] = v] *)
Definition set_cell (sudoku : board) (r c : nat) (v : Z) : board :=
  alter (fun row => <[c := v]> row) r sudoku.

Definition shape9 (sudoku : board) : Prop :=
  length sudoku = 9%nat /\ Forall (fun row => length row = 9%nat) sudoku.

Definition in_grid (p : cell) : Prop := (p.1 < 9)%nat /\ (p.2 < 9)%nat.

(** Entries are 0 (empty) or a digit. *)
Definition entries_0_9 (sudoku : board) : Prop :=
  forall r c, (r < 9)%nat -> (c < 9)%nat -> 0 <= get sudoku r c <= 9.

(** * The program *)

(** ** The iteration order of a CPython set of small integers

    [generate_candidates] returns [list(set(...) - final_set)]: the order of
    its result is the order in which CPython iterates the hash table of the
    difference.  The source does not sort.  This section models
    Objects/setobject.c (CPython 3.7 and later) as far as the program uses
    it: an open-addressing table whose slots are visited in index order.
    The hash of a small non-negative [int] is the integer itself. *)
Module PySet.

Definition PySet_MINSIZE : nat := 8.
Definition LINEAR_PROBES : Z := 9.
Definition PERTURB_SHIFT : Z := 5.

(** [so->table]: a slot is [None] (key == NULL) or holds a key.  No table
    built by the program contains a dummy entry when a key is added to
    it. *)
Definition setentries : Type := list (option Z).

Definition new_table (size : nat) : setentries := replicate size None.
Definition set_mask (t : setentries) : Z := Z.of_nat (length t) - 1.
Definition set_used (t : setentries) : nat := length (omap id t).

(** [set_next]: iteration visits the slots by increasing index. *)
Definition set_iter (t : setentries) : list Z := omap id t.

Definition int_hash (key : Z) : Z := key.

Inductive probe_result := Unused (i : nat) | Present | Exhausted.

(** The slots [i], [i+1], ..., [i+probes]. *)
Fixpoint linear_probe (t : setentries) (key : Z) (i probes : nat) : probe_result :=
  match t !! i with
  | Some None => Unused i
  | Some (Some k) =>
      if decide (k = key) then Present
      else match probes with
           | O => Exhausted
           | S probes' => linear_probe t key (S i) probes'
           end
  | None => Exhausted
  end.

(** The probe sequence of [set_add_entry] and [set_insert_clean]:
    [perturb >>= PERTURB_SHIFT; i = (i * 5 + 1 + perturb) & mask].
    The C code computes in [size_t]; the final [& mask] makes the wrap
    irrelevant.  [n] bounds the number of rounds. *)
Fixpoint probe (n : nat) (t : setentries) (key i perturb : Z) : probe_result :=
  match n with
  | O => Exhausted
  | S n' =>
      let mask := set_mask t in
      let probes := if decide (i + LINEAR_PROBES <= mask) then LINEAR_PROBES else 0 in
      match linear_probe t key (Z.to_nat i) (Z.to_nat probes) with
      | Exhausted =>
          let perturb' := Z.shiftr perturb PERTURB_SHIFT in
          probe n' t key (Z.land (i * 5 + 1 + perturb') mask) perturb'
      | r => r
      end
  end.

Definition lookkey (t : setentries) (key : Z) : probe_result :=
  probe (4 * length t) t key (Z.land (int_hash key) (set_mask t)) (int_hash key).

(** [set_insert_clean]: the key is known to be absent. *)
Definition set_insert_clean (t : setentries) (key : Z) : setentries :=
  match lookkey t key with
  | Unused i => <[i := Some key]> t
  | _ => t
  end.

(** [set_table_resize]: the smallest power of two above [minused], at
    least [PySet_MINSIZE]; the old entries are re-inserted in slot order. *)
Fixpoint grow (n size minused : nat) : nat :=
  match n with
  | O => size
  | S n' => if decide (size <= minused)%nat then grow n' (2 * size)%nat minused else size
  end.

Definition set_table_resize (t : setentries) (minused : nat) : setentries :=
  foldl set_insert_clean (new_table (grow 64 PySet_MINSIZE minused)) (set_iter t).

(** [set_add_entry]; [fill = used] in a table without dummies. *)
Definition set_add_entry (t : setentries) (key : Z) : setentries :=
  match lookkey t key with
  | Unused i =>
      let t' := <[i := Some key]> t in
      let fill := Z.of_nat (set_used t') in
      if decide (fill * 5 < set_mask t' * 3) then t'
      else set_table_resize t' (if decide (50000 < fill)
                                then (set_used t' * 2)%nat else (set_used t' * 4)%nat)
  | _ => t
  end.

(** [set(iterable)] for a list of keys. *)
Definition set_of_list (keys : list Z) : setentries :=
  foldl set_add_entry (new_table PySet_MINSIZE) keys.

(** [set_copy]: [set_merge] into an empty set resizes once, then copies the
    table as it is when the sizes agree. *)
Definition set_copy (so : setentries) : setentries :=
  let used := set_used so in
  let t := if decide (7 * 3 <= used * 5)%nat
           then new_table (grow 64 PySet_MINSIZE (used * 2)) else new_table PySet_MINSIZE in
  if decide (length t = length so) then so else foldl set_insert_clean t (set_iter so).

(** [list(so - other)], by [set_difference].  When [so] is much larger
    than [other] the result is a copy of [so] from which the keys of
    [other] are discarded (they leave dummies, which iteration skips);
    otherwise the keys of [so] that are not in [other] are added, in the
    iteration order of [so], to a new empty set. *)
Definition difference_list (so : setentries) (other : gset Z) : list Z :=
  if decide (size other < Nat.shiftr (set_used so) 2)%nat
  then filter (fun key => key ∉ other) (set_iter (set_copy so))
  else set_iter (foldl (fun result key =>
                          if decide (key ∈ other) then result else set_add_entry result key)
                       (new_table PySet_MINSIZE) (set_iter so)).

End PySet.

(** ** The readers *)

(** [list(range(1, 10))] *)
Definition digits : list Z := seqZ 1 9.

(** The comprehension [[sudoku[row][i] for i in range(0, 9) if sudoku[row][i] > 0]]. *)
Definition row_values (sudoku : board) (row : nat) : list Z :=
  filter (fun v => 0 < v) ((fun i => get sudoku row i) <$> seq 0 9).

Definition col_values (sudoku : board) (col : nat) : list Z :=
  filter (fun v => 0 < v) ((fun i => get sudoku i col) <$> seq 0 9).

(** The double loop over [range(3)] appending the positive entries of the
    3x3 block whose top-left corner is [(r0, c0)]. *)
Definition box_values (sudoku : board) (r0 c0 : nat) : list Z :=
  filter (fun v => 0 < v)
         (i ← seq 0 3; j ← seq 0 3; [get sudoku (r0 + i) (c0 + j)]).

(** [generate_candidates(sudoku, row, col)].  The result type is [option]
    because [solver] compares the result with [None]; the function has one
    [return], of a list. *)
Definition generate_candidates (sudoku : board) (row col : nat) : option (list Z) :=
  let mod_row := (row mod 3)%nat in
  let mod_col := (col mod 3)%nat in
  let row_vals := row_values sudoku row in
  let col_vals := col_values sudoku col in
  let box_vals :=
    filter (fun v => 0 < v)
           (i ← seq 0 3; j ← seq 0 3;
            [get sudoku (row + i - mod_row) (col + j - mod_col)]) in
  let final_set : gset Z :=
    list_to_set box_vals ∪ list_to_set row_vals ∪ list_to_set col_vals in
  let candidates := PySet.difference_list (PySet.set_of_list digits) final_set in
  Some candidates.

(** [len(vals) != len(set(vals))] *)
Definition len_differs (vals : list Z) : bool :=
  bool_decide (length vals ≠ size (list_to_set vals : gset Z)).

(** [check_invalid(sudoku)]: each loop returns [True] at the first index
    whose test succeeds. *)
Definition check_invalid (sudoku : board) : bool :=
  if existsb (fun idx =>
                let row_vals := row_values sudoku idx in
                let col_vals := col_values sudoku idx in
                len_differs col_vals || len_differs row_vals) (seq 0 9)
  then true
  else if existsb (fun row_idx =>
                     existsb (fun col_idx =>
                                len_differs (box_values sudoku (row_idx * 3) (col_idx * 3)))
                             (seq 0 3)) (seq 0 3)
  then true
  else false.

(** The cells in the order of the two nested [range(9)] loops. *)
Definition grid : list cell := r ← seq 0 9; c ← seq 0 9; [(r, c)].

(** [find_spaces(sudoku)]: the coordinates of the zero entries in scan
    order, or [None] when there is none. *)
Definition find_spaces (sudoku : board) : option (list cell) :=
  let zeroes := filter (fun p : cell => get sudoku p.1 p.2 = 0) grid in
  match zeroes with
  | [] => None
  | _ => Some zeroes
  end.

(** ** The backtracking engine *)

(** The two [return] statements of [solver]: a bare [return] (Python's
    [None]) and [return sudoku], which hands back the board object itself;
    its contents are those of the board in the final state. *)
Inductive retval := RetNone | RetSudoku.

(** What a call of [solver] leaves behind: the value returned and the final
    contents of the two mutable objects it was given, or Python's
    [RecursionError] when the frames needed exceed the interpreter's
    limit. *)
Inductive outcome :=
| RecursionError
| Returned (r : retval) (sudoku : board) (zeroes : list cell).

(** The loop [for value in candidate_vals] at the cell [(x, y)], followed by
    the two statements after it.  [call] is the recursive invocation
    [solver(sudoku, zeroes)]; it receives the current contents of the shared
    board and queue and its outcome gives their contents afterwards. *)
Fixpoint for_value (call : board -> list cell -> outcome) (x y : nat)
    (candidate_vals : list Z) (sudoku : board) (zeroes : list cell) : outcome :=
  match candidate_vals with
  | [] => Returned RetNone (set_cell sudoku x y 0) ((x, y) :: zeroes)
  | value :: rest =>
      match call (set_cell sudoku x y value) zeroes with
      | RecursionError => RecursionError
      | Returned RetSudoku sudoku' zeroes' => Returned RetSudoku sudoku' zeroes'
      | Returned RetNone sudoku' zeroes' => for_value call x y rest sudoku' zeroes'
      end
  end.

(** [solver(sudoku, zeroes)].  [zeroes] is [None] when [find_spaces] found
    no empty cell; [if zeroes:] is false for [None] and for the empty list
    (for [None] there is no queue object, and the outcome shows an empty
    one).  Under [candidate_vals == None] the assignment [zeroes = []]
    rebinds the local name only: the shared queue stays as [pop] left it.
    [limit] is the number of frames that may still be pushed. *)
Fixpoint solver (limit : nat) (sudoku : board) (zeroes : option (list cell)) : outcome :=
  match limit with
  | O => RecursionError
  | S limit' =>
      match zeroes with
      | Some ((x, y) :: rest) =>
          match generate_candidates sudoku x y with
          | None => Returned RetNone sudoku rest
          | Some candidate_vals =>
              for_value (fun s z => solver limit' s (Some z)) x y candidate_vals sudoku rest
          end
      | Some [] => Returned RetSudoku sudoku []
      | None => Returned RetSudoku sudoku []
      end
  end.

(** [np.full((9, 9), -1)] *)
Definition failure : board := replicate 9 (replicate 9 (-1)).

(** What [sudoku_solver] gives its caller. *)
Inductive answer := Raised | Array (a : board).

(** [sudoku_solver(sudoku)].  [tolist] copies the entries; the copy is what
    [solver] mutates (Module [Heap] keeps the two objects apart). *)
Definition sudoku_solver (limit : nat) (sudoku : board) : answer :=
  if check_invalid sudoku then Array failure
  else
    let sudoku := sudoku in
    let zeroes := find_spaces sudoku in
    match solver limit sudoku zeroes with
    | RecursionError => Raised
    | Returned RetNone _ _ => Array failure
    | Returned RetSudoku solution _ => Array solution
    end.

(** ** The objects of a run, with identity

    [sudoku_solver] receives a reference to the caller's array.  The store
    maps locations to objects; [np.full], [tolist], the list built by
    [find_spaces] and [np.array] each allocate a new object.  [solver]
    reads and writes the nested list and the queue through the references
    it was given. *)
Module Heap.

Inductive object :=
| Ndarray (a : board)
| Nested (sudoku : board)
| Cells (zeroes : list cell).

Abbreviation loc := positive (only parsing).

(** A new object at an unused location. *)
Definition alloc (h : gmap loc object) (o : object) : loc * gmap loc object :=
  let l := fresh (dom h) in (l, <[l := o]> h).

(** [TypeError] stands for an operation applied to a reference that does
    not hold the kind of object the operation needs. *)
Inductive outcome :=
| RecursionError
| TypeError
| Returned (r : option loc) (h : gmap loc object).

Fixpoint for_value (call : gmap loc object -> outcome) (sudoku zeroes : loc) (x y : nat)
    (candidate_vals : list Z) (h : gmap loc object) : outcome :=
  match candidate_vals with
  | [] =>
      match h !! sudoku, h !! zeroes with
      | Some (Nested b), Some (Cells q) =>
          Returned None (<[zeroes := Cells ((x, y) :: q)]>
                           (<[sudoku := Nested (set_cell b x y 0)]> h))
      | _, _ => TypeError
      end
  | value :: rest =>
      match h !! sudoku with
      | Some (Nested b) =>
          match call (<[sudoku := Nested (set_cell b x y value)]> h) with
          | Returned None h' => for_value call sudoku zeroes x y rest h'
          | Returned (Some _) h' => Returned (Some sudoku) h'
          | RecursionError => RecursionError
          | TypeError => TypeError
          end
      | _ => TypeError
      end
  end.

Fixpoint solver (limit : nat) (h : gmap loc object) (sudoku : loc) (zeroes : option loc)
  : outcome :=
  match limit with
  | O => RecursionError
  | S limit' =>
      match zeroes with
      | None => Returned (Some sudoku) h
      | Some lz =>
          match h !! lz with
          | Some (Cells []) => Returned (Some sudoku) h
          | Some (Cells ((x, y) :: rest)) =>
              let h1 := <[lz := Cells rest]> h in
              match h1 !! sudoku with
              | Some (Nested b) =>
                  match generate_candidates b x y with
                  | None => Returned None h1
                  | Some candidate_vals =>
                      for_value (fun h' => solver limit' h' sudoku (Some lz))
                                sudoku lz x y candidate_vals h1
                  end
              | _ => TypeError
              end
          | _ => TypeError
          end
      end
  end.

Definition sudoku_solver (limit : nat) (h : gmap loc object) (sudoku : loc) : outcome :=
  match h !! sudoku with
  | Some (Ndarray a) =>
      let '(failure, h) := alloc h (Ndarray failure) in
      if check_invalid a then Returned (Some failure) h
      else
        let '(sudoku, h) := alloc h (Nested a) in
        let '(zeroes, h) :=
          match find_spaces a with
          | None => (None, h)
          | Some q => let '(lz, h) := alloc h (Cells q) in (Some lz, h)
          end in
        match solver limit h sudoku zeroes with
        | Returned None h => Returned (Some failure) h
        | Returned (Some solution) h =>
            match h !! solution with
            | Some (Nested s) => let '(out, h) := alloc h (Ndarray s) in Returned (Some out) h
            | _ => TypeError
            end
        | RecursionError => RecursionError
        | TypeError => TypeError
        end
  | _ => TypeError
  end.

End Heap.

(** * Notions used in the statements *)

(** ** Rows, columns and boxes as lists of cells *)

Definition cell_value (sudoku : board) (p : cell) : Z := get sudoku p.1 p.2.

Definition row_cells (r : nat) : list cell := (fun i => (r, i)) <$> seq 0 9.
Definition col_cells (c : nat) : list cell := (fun i => (i, c)) <$> seq 0 9.
Definition box_cells (r0 c0 : nat) : list cell :=
  i ← seq 0 3; j ← seq 0 3; [((r0 + i)%nat, (c0 + j)%nat)].

(** The 27 units: 9 rows, 9 columns and the 9 non-overlapping boxes. *)
Definition units : list (list cell) :=
  (row_cells <$> seq 0 9) ++ (col_cells <$> seq 0 9)
  ++ (br ← seq 0 3; bc ← seq 0 3; [box_cells (br * 3) (bc * 3)]).

(** The cells [generate_candidates] looks at for the cell [p]. *)
Definition peers (p : cell) : list cell :=
  box_cells (p.1 - p.1 mod 3) (p.2 - p.2 mod 3) ++ row_cells p.1 ++ col_cells p.2.

(** Same row, same column or same box. *)
Definition related (p q : cell) : bool :=
  bool_decide (p.1 = q.1) || bool_decide (p.2 = q.2)
  || (bool_decide (p.1 / 3 = q.1 / 3)%nat && bool_decide (p.2 / 3 = q.2 / 3)%nat).

(** The positive values held by a list of cells, in the order of the list. *)
Definition values_at (sudoku : board) (cells : list cell) : list Z :=
  filter (fun v => 0 < v) (cell_value sudoku <$> cells).

(** All sublists of a list; [filter P l] is one of them. *)
Fixpoint sublists {A} (l : list A) : list (list A) :=
  match l with
  | [] => [[]]
  | x :: l' => (cons x <$> sublists l') ++ sublists l'
  end.

(** ** Boards without conflict *)

(** No digit twice among related cells. *)
Definition consistent (sudoku : board) : Prop :=
  forall p q, p ∈ grid -> q ∈ grid -> p <> q -> related p q = true ->
    0 < cell_value sudoku p -> cell_value sudoku p <> cell_value sudoku q.

(** Two different cells of [u] hold the same non-zero value. *)
Definition repeats (sudoku : board) (u : list cell) : Prop :=
  exists p q, p ∈ u /\ q ∈ u /\ p <> q /\
    cell_value sudoku p <> 0 /\ cell_value sudoku p = cell_value sudoku q.

(** Some row, some column or some 3x3 box contains a repeated non-zero
    value. *)
Definition has_repeat (sudoku : board) : Prop :=
  (exists r, (r < 9)%nat /\ repeats sudoku (row_cells r)) \/
  (exists c, (c < 9)%nat /\ repeats sudoku (col_cells c)) \/
  (exists br bc, (br < 3)%nat /\ (bc < 3)%nat /\ repeats sudoku (box_cells (br * 3) (bc * 3))).

(** ** Solved boards and completions *)

(** Every row, column and box contains each digit 1-9 exactly once. *)
Definition solved (sudoku : board) : Prop :=
  shape9 sudoku /\ forall u, u ∈ units -> cell_value sudoku <$> u ≡ₚ digits.

(** [solution] agrees with [sudoku] on every non-zero cell of [sudoku]. *)
Definition extends (sudoku solution : board) : Prop :=
  forall p, p ∈ grid -> cell_value sudoku p <> 0 -> cell_value solution p = cell_value sudoku p.

Definition completion (sudoku solution : board) : Prop :=
  solved solution /\ extends sudoku solution.

(** What holds of the board and the queue at every call of [solver] made on
    behalf of [sudoku_solver]: the queue lists the empty cells, each once. *)
Record search_state (sudoku : board) (zeroes : list cell) : Prop := {
  st_shape : shape9 sudoku;
  st_range : forall p, p ∈ grid -> 0 <= cell_value sudoku p <= 9;
  st_consistent : consistent sudoku;
  st_nodup : NoDup zeroes;
  st_queue : forall p, p ∈ zeroes <-> p ∈ grid /\ cell_value sudoku p = 0
}.

(** ** The states in which [solver] is called *)

(** The conditions under which a call of [solver] is made: the queued cells
    are distinct cells of the grid and are empty on the board. *)
Definition queue_ok (sudoku : board) (zeroes : list cell) : Prop :=
  shape9 sudoku /\ NoDup zeroes /\
  forall p, p ∈ zeroes -> p ∈ grid /\ cell_value sudoku p = 0.

(** ** The queue built by [find_spaces] *)

Definition zero_cells (sudoku : board) : list cell :=
  filter (fun p : cell => get sudoku p.1 p.2 = 0) grid.

(** ** The order of the search *)

(** [first] is reached before [other] by the search from [sudoku] over the
    queue [zeroes]: at the first queued cell where the two boards differ,
    the list of candidates computed on the board filled so far has the
    value of [first] in front of the value of [other]. *)
Fixpoint reached_before (sudoku : board) (zeroes : list cell) (first other : board) : Prop :=
  match zeroes with
  | [] => True
  | (x, y) :: rest =>
      if decide (get other x y = get first x y)
      then reached_before (set_cell sudoku x y (get first x y)) rest first other
      else exists l tried later,
             generate_candidates sudoku x y = Some l /\
             l = tried ++ get first x y :: later /\ get other x y ∈ later
  end.

(** ** Relating the two models *)

(** The outcome of the store-based [solver] that corresponds to an outcome
    of the state-passing one: the two objects hold the final board and
    queue, and nothing else has changed. *)
Definition lift_outcome (h : gmap positive Heap.object) (ls lz : positive) (o : outcome)
  : Heap.outcome :=
  match o with
  | RecursionError => Heap.RecursionError
  | Returned r sudoku zeroes =>
      Heap.Returned (match r with RetNone => None | RetSudoku => Some ls end)
                    (<[lz := Heap.Cells zeroes]> (<[ls := Heap.Nested sudoku]> h))
  end.

(** ** The order of the queue and of the candidates *)

(** The scan order of the two nested loops of [find_spaces]. *)
Definition scan_before (p q : cell) : Prop :=
  (p.1 < q.1)%nat \/ (p.1 = q.1 /\ (p.2 < q.2)%nat).

#[local] Instance scan_before_dec : RelDecision scan_before.
Proof. intros p q. unfold scan_before. apply _. Defined.

(** ** Boards used as examples *)

Definition example_solved : board :=
  [[1;2;3;4;5;6;7;8;9]; [4;5;6;7;8;9;1;2;3]; [7;8;9;1;2;3;4;5;6];
   [2;3;4;5;6;7;8;9;1]; [5;6;7;8;9;1;2;3;4]; [8;9;1;2;3;4;5;6;7];
   [3;4;5;6;7;8;9;1;2]; [6;7;8;9;1;2;3;4;5]; [9;1;2;3;4;5;6;7;8]].

(** [example_solved] with its first cell emptied. *)
Definition example_puzzle : board :=
  [[0;2;3;4;5;6;7;8;9]; [4;5;6;7;8;9;1;2;3]; [7;8;9;1;2;3;4;5;6];
   [2;3;4;5;6;7;8;9;1]; [5;6;7;8;9;1;2;3;4]; [8;9;1;2;3;4;5;6;7];
   [3;4;5;6;7;8;9;1;2]; [6;7;8;9;1;2;3;4;5]; [9;1;2;3;4;5;6;7;8]].

Definition empty_board : board := replicate 9 (replicate 9 0).

(** The first five cells filled as the search fills them. *)
Definition five_placed : board :=
  [1;2;3;4;5;0;0;0;0] :: replicate 8 (replicate 9 0).

(** Two 5 in the first row. *)
Definition two_fives : board :=
  [5;5;0;0;0;0;0;0;0] :: replicate 8 (replicate 9 0).

(** No duplicate, and no completion: the second cell of the first row
    has no candidate. *)
Definition dead_end : board :=
  [[0;0;3;4;5;6;7;8;9]; [0;0;0;0;0;0;0;0;0]; [0;0;0;0;0;0;0;0;0];
   [0;1;0;0;0;0;0;0;0]; [0;2;0;0;0;0;0;0;0]; [0;0;0;0;0;0;0;0;0];
   [0;0;0;0;0;0;0;0;0]; [0;0;0;0;0;0;0;0;0]; [0;0;0;0;0;0;0;0;0]].

(** The grid [sudoku_solver] returns for [empty_board]. *)
Definition empty_board_found : board :=
  [[1;2;3;4;5;8;9;6;7]; [4;5;8;6;7;9;1;2;3]; [9;6;7;1;2;3;8;4;5];
   [2;1;9;8;3;4;5;7;6]; [3;8;4;5;6;7;2;1;9]; [5;7;6;9;1;2;3;8;4];
   [8;9;1;3;4;6;7;5;2]; [6;3;2;7;8;5;4;9;1]; [7;4;5;2;9;1;6;3;8]].

(** * Properties *)

(** ** The set model on the digits *)

Example set_of_digits : PySet.set_iter (PySet.set_of_list digits) = digits.
Proof. vm_compute. reflexivity. Qed.

Example difference_1_8 :
  PySet.difference_list (PySet.set_of_list digits) (list_to_set [2;3;4;5;6;7;9]) = [8; 1].
Proof. vm_compute. reflexivity. Qed.

(** ** Boards as 9x9 arrays *)

Section board_access.
Implicit Types (sudoku : board) (r c : nat) (v : Z).

Lemma shape9_row sudoku r :
  shape9 sudoku -> (r < 9)%nat -> length (sudoku !!! r) = 9%nat.
Proof.
  intros [Hlen Hrows] Hr.
  rewrite Forall_forall in Hrows. apply Hrows.
  apply list_elem_of_lookup_total_2. lia.
Qed.

Lemma get_set_cell_eq sudoku r c v :
  shape9 sudoku -> (r < 9)%nat -> (c < 9)%nat ->
  get (set_cell sudoku r c v) r c = v.
Proof.
  intros Hs Hr Hc. unfold get, set_cell.
  rewrite list_lookup_total_alter_eq by (destruct Hs; lia).
  apply list_lookup_total_insert_eq. rewrite shape9_row; auto.
Qed.

Lemma get_set_cell_ne sudoku r c v r' c' :
  (r, c) <> (r', c') ->
  get (set_cell sudoku r c v) r' c' = get sudoku r' c'.
Proof.
  intros Hne. unfold get, set_cell.
  destruct (decide (r = r')) as [<-|Hr].
  - rewrite list_lookup_total_alter.
    case_decide; [|done].
    apply list_lookup_total_insert_ne. congruence.
  - by rewrite list_lookup_total_alter_ne.
Qed.

Lemma shape9_set_cell sudoku r c v :
  shape9 sudoku -> shape9 (set_cell sudoku r c v).
Proof.
  intros [Hlen Hrows]. split.
  - unfold set_cell. by rewrite length_alter.
  - unfold set_cell. rewrite Forall_forall in Hrows |- *.
    intros row [i Hi]%list_elem_of_lookup_1.
    rewrite list_lookup_alter in Hi. case_decide.
    + destruct (sudoku !! r) as [row0|] eqn:Hrow; simplify_eq/=.
      rewrite length_insert. apply Hrows.
      by eapply list_elem_of_lookup_2.
    + apply Hrows. by eapply list_elem_of_lookup_2.
Qed.

Lemma set_cell_set_cell sudoku r c v w :
  set_cell (set_cell sudoku r c v) r c w = set_cell sudoku r c w.
Proof.
  unfold set_cell. rewrite list_alter_alter_eq.
  apply list_alter_ext; [|done].
  intros row _. simpl. apply list_insert_insert_eq.
Qed.

Lemma set_cell_get sudoku r c :
  shape9 sudoku -> (r < 9)%nat -> (c < 9)%nat ->
  set_cell sudoku r c (get sudoku r c) = sudoku.
Proof.
  intros Hs Hr Hc. unfold set_cell, get.
  apply list_eq. intros i. rewrite list_lookup_alter.
  case_decide; [subst i|done].
  rewrite (list_lookup_lookup_total_lt sudoku r) by (destruct Hs; lia).
  simpl. f_equal. apply list_insert_id.
  apply list_lookup_lookup_total_lt. rewrite shape9_row; auto.
Qed.

(** Two 9x9 boards with the same entries are the same list of rows. *)
Lemma board_ext sudoku1 sudoku2 :
  shape9 sudoku1 -> shape9 sudoku2 ->
  (forall r c, (r < 9)%nat -> (c < 9)%nat -> get sudoku1 r c = get sudoku2 r c) ->
  sudoku1 = sudoku2.
Proof.
  intros H1 H2 Heq.
  apply (list_eq_same_length _ _ 9); [apply H2|apply H1|].
  intros r row1 row2 Hr Hrow1 Hrow2.
  pose proof (shape9_row _ r H1 Hr) as Hl1.
  pose proof (shape9_row _ r H2 Hr) as Hl2.
  rewrite (list_lookup_total_correct _ _ _ Hrow1) in Hl1.
  rewrite (list_lookup_total_correct _ _ _ Hrow2) in Hl2.
  apply (list_eq_same_length _ _ 9); [done..|].
  intros c v1 v2 Hc Hv1 Hv2.
  specialize (Heq r c Hr Hc). unfold get in Heq.
  rewrite (list_lookup_total_correct _ _ _ Hrow1),
          (list_lookup_total_correct _ _ _ Hrow2),
          (list_lookup_total_correct _ _ _ Hv1),
          (list_lookup_total_correct _ _ _ Hv2) in Heq.
  done.
Qed.

End board_access.

(** Finite facts about the grid are decided by evaluation. *)
Ltac by_computation := apply (bool_decide_unpack _); vm_compute; exact I.

Section geometry.

Lemma in_grid_elem p : in_grid p <-> p ∈ grid.
Proof.
  unfold in_grid, grid. destruct p as [r c]. split.
  - intros [Hr Hc]. simpl in Hr, Hc. apply list_elem_of_bind. exists r. split.
    + apply list_elem_of_bind. exists c. split; [set_solver|].
      apply elem_of_seq. lia.
    + apply elem_of_seq. lia.
  - intros (r' & (c' & Hp & Hc)%list_elem_of_bind & Hr)%list_elem_of_bind.
    apply elem_of_seq in Hr, Hc. apply list_elem_of_singleton in Hp.
    simplify_eq. simpl. lia.
Qed.

Lemma grid_NoDup : NoDup grid.
Proof. by_computation. Qed.

Lemma units_NoDup : Forall NoDup units.
Proof. by_computation. Qed.

Lemma units_in_grid : Forall (fun u => Forall (fun p => p ∈ grid) u) units.
Proof. by_computation. Qed.

Lemma units_length : Forall (fun u => length u = 9%nat) units.
Proof. by_computation. Qed.

Lemma elem_of_row_cells r p : p ∈ row_cells r <-> p.1 = r /\ (p.2 < 9)%nat.
Proof.
  unfold row_cells. rewrite list_elem_of_fmap. destruct p as [pr pc]. cbn [fst snd]. split.
  - intros (i & [= -> ->] & Hi%elem_of_seq). lia.
  - intros [-> Hc]. exists pc. split; [done|]. apply elem_of_seq. lia.
Qed.

Lemma elem_of_col_cells c p : p ∈ col_cells c <-> p.2 = c /\ (p.1 < 9)%nat.
Proof.
  unfold col_cells. rewrite list_elem_of_fmap. destruct p as [pr pc]. cbn [fst snd]. split.
  - intros (i & [= -> ->] & Hi%elem_of_seq). lia.
  - intros [-> Hr]. exists pr. split; [done|]. apply elem_of_seq. lia.
Qed.

Lemma elem_of_box_cells r0 c0 p :
  p ∈ box_cells r0 c0 <->
  (r0 <= p.1 < r0 + 3)%nat /\ (c0 <= p.2 < c0 + 3)%nat.
Proof.
  unfold box_cells. rewrite list_elem_of_bind. destruct p as [pr pc]. cbn [fst snd]. split.
  - intros (i & (j & Hp & Hj%elem_of_seq)%list_elem_of_bind & Hi%elem_of_seq).
    apply list_elem_of_singleton in Hp as [= -> ->]. lia.
  - intros [Hr Hc]. exists (pr - r0)%nat. split; [|apply elem_of_seq; lia].
    apply list_elem_of_bind. exists (pc - c0)%nat. split; [|apply elem_of_seq; lia].
    apply list_elem_of_singleton. f_equal; lia.
Qed.

(** Division by 3, for [lia]. *)
Lemma div3_spec n : (n = 3 * (n / 3) + n mod 3 /\ n mod 3 < 3)%nat.
Proof. split; [apply Nat.div_mod_eq|by apply Nat.mod_upper_bound]. Qed.

Lemma related_spec p q :
  related p q = true <->
  p.1 = q.1 \/ p.2 = q.2 \/ ((p.1 / 3 = q.1 / 3)%nat /\ (p.2 / 3 = q.2 / 3)%nat).
Proof.
  unfold related.
  rewrite !orb_true_iff, andb_true_iff, !bool_decide_eq_true. tauto.
Qed.

Lemma elem_of_peers p q :
  q ∈ peers p <->
  ((p.1 - p.1 mod 3 <= q.1 < p.1 - p.1 mod 3 + 3)%nat /\
   (p.2 - p.2 mod 3 <= q.2 < p.2 - p.2 mod 3 + 3)%nat) \/
  (q.1 = p.1 /\ (q.2 < 9)%nat) \/ (q.2 = p.2 /\ (q.1 < 9)%nat).
Proof.
  unfold peers. by rewrite !elem_of_app, elem_of_box_cells, elem_of_row_cells,
    elem_of_col_cells.
Qed.

(** The box scanned by [generate_candidates]: [row + i - mod_row] is
    [(row - mod_row) + i], since [mod_row <= row]. *)
Lemma box_scan (row col : nat) :
  (i ← seq 0 3; j ← seq 0 3; [((row + i - row mod 3)%nat, (col + j - col mod 3)%nat)])
  = box_cells (row - row mod 3) (col - col mod 3).
Proof.
  unfold box_cells.
  pose proof (div3_spec row) as Hr. pose proof (div3_spec col) as Hc.
  apply list_bind_ext; [|done]. intros i.
  apply list_bind_ext; [|done]. intros j. do 2 f_equal; lia.
Qed.

End geometry.

(** ** The candidate list *)

Lemma filter_sublists {A} (P : A -> Prop) `{!forall x, Decision (P x)} (l : list A) :
  filter P l ∈ sublists l.
Proof.
  induction l as [|x l IH]; simpl.
  - set_solver.
  - rewrite filter_cons. apply elem_of_app. destruct (decide (P x)).
    + left. by apply list_elem_of_fmap_2.
    + by right.
Qed.

(** A set built by adding some of the digits, in increasing order, to an
    empty table holds exactly those digits: sorting its iteration order gives
    them back. *)
Lemma added_digits_sorted :
  Forall (fun l => merge_sort Z.le (PySet.set_iter (foldl PySet.set_add_entry
                     (PySet.new_table PySet.PySet_MINSIZE) l)) = l)
         (sublists digits).
Proof. by_computation. Qed.

Lemma foldl_add_filter (other : gset Z) (keys : list Z) (t : PySet.setentries) :
  foldl (fun result key =>
           if decide (key ∈ other) then result else PySet.set_add_entry result key) t keys
  = foldl PySet.set_add_entry t (filter (fun key => key ∉ other) keys).
Proof.
  revert t. induction keys as [|k keys IH]; intros t; [done|].
  simpl. rewrite filter_cons. destruct (decide (k ∈ other)) as [Hin|Hout].
  - rewrite decide_False by auto. apply IH.
  - rewrite decide_True by done. simpl. apply IH.
Qed.

(** [list(set(range(1, 10)) - other)] lists the digits outside [other], each
    once, in some order. *)
Lemma difference_digits_perm (other : gset Z) :
  PySet.difference_list (PySet.set_of_list digits) other
  ≡ₚ filter (fun key => key ∉ other) digits.
Proof.
  unfold PySet.difference_list.
  assert (PySet.set_iter (PySet.set_of_list digits) = digits) as Hiter
    by (vm_compute; reflexivity).
  assert (PySet.set_iter (PySet.set_copy (PySet.set_of_list digits)) = digits) as Hcopy
    by (vm_compute; reflexivity).
  case_decide.
  - by rewrite Hcopy.
  - rewrite Hiter, foldl_add_filter.
    pose proof added_digits_sorted as Hall. rewrite Forall_forall in Hall.
    specialize (Hall _ (filter_sublists (fun key => key ∉ other) digits)).
    rewrite <- Hall at 2. symmetry. apply merge_sort_Permutation.
Qed.

Lemma elem_of_values_at sudoku cells v :
  v ∈ values_at sudoku cells <-> 0 < v /\ exists q, q ∈ cells /\ cell_value sudoku q = v.
Proof.
  unfold values_at. rewrite list_elem_of_filter, list_elem_of_fmap.
  split; [intros (? & q & -> & ?)|intros (? & q & ? & <-)]; eauto.
Qed.

(** The three lists read by [generate_candidates] are the positive values
    of the peers of the cell. *)
Lemma candidates_peers sudoku row col :
  (row, col) ∈ grid ->
  exists l, generate_candidates sudoku row col = Some l /\
    l ≡ₚ filter (fun key => key ∉ (list_to_set (values_at sudoku (peers (row, col))) : gset Z))
               digits.
Proof.
  intros Hin. eexists. split; [reflexivity|].
  rewrite difference_digits_perm.
  pose proof (box_scan row col) as Hbox.
  match goal with
  | |- filter (fun _ => _ ∉ ?X) _ ≡ₚ filter (fun _ => _ ∉ ?Y) _ =>
      assert (X = Y) as ->; [|done]
  end.
  unfold peers, values_at. cbn [fst snd].
  rewrite !fmap_app, !filter_app, !list_to_set_app_L.
  rewrite <- Hbox. by rewrite <- (assoc_L (∪)).
Qed.
Lemma candidates_spec sudoku row col :
  (row, col) ∈ grid ->
  exists l, generate_candidates sudoku row col = Some l /\ NoDup l /\
    forall v, v ∈ l <->
      1 <= v <= 9 /\ forall q, q ∈ peers (row, col) -> cell_value sudoku q <> v.
Proof.
  intros Hin. destruct (candidates_peers sudoku row col Hin) as (l & Hl & Hperm).
  exists l. split; [done|]. split.
  - rewrite Hperm. apply NoDup_filter, NoDup_seqZ.
  - intros v. rewrite Hperm, list_elem_of_filter, elem_of_list_to_set, elem_of_values_at.
    unfold digits. rewrite elem_of_seqZ. split.
    + intros [Hout Hv]. split; [lia|]. intros q Hq Heq. apply Hout. split; [lia|eauto].
    + intros [Hv Hout]. split; [|lia]. intros (_ & q & Hq & Heq). by apply (Hout q).
Qed.

(** ** Duplicates *)

Lemma size_list_to_set_le (l : list Z) : (size (list_to_set l : gset Z) <= length l)%nat.
Proof.
  induction l as [|x l IH].
  - by rewrite list_to_set_nil, size_empty.
  - rewrite list_to_set_cons, size_union_alt, size_singleton. simpl.
    assert (size (list_to_set l ∖ {[x]} : gset Z) <= size (list_to_set l : gset Z))%nat
      by (apply subseteq_size; set_solver).
    lia.
Qed.

(** [len(vals) != len(set(vals))] tells whether [vals] has a duplicate. *)
Lemma len_differs_false (vals : list Z) : len_differs vals = false <-> NoDup vals.
Proof.
  unfold len_differs. rewrite bool_decide_eq_false. split.
  - intros Hlen. assert (length vals = size (list_to_set vals : gset Z)) as Heq
      by (destruct (decide (length vals = size (list_to_set vals : gset Z))); tauto).
    clear Hlen. induction vals as [|x l IH]; [constructor|].
    rewrite list_to_set_cons in Heq. simpl in Heq. apply NoDup_cons.
    pose proof (size_list_to_set_le l) as Hle.
    destruct (decide (x ∈ l)) as [Hin|Hout].
    + exfalso.
      assert ({[x]} ∪ list_to_set l = (list_to_set l : gset Z)) as Hsame by set_solver.
      rewrite Hsame in Heq. lia.
    + split; [done|]. apply IH.
      rewrite size_union, size_singleton in Heq by set_solver. lia.
  - intros Hnd Hne. apply Hne. by rewrite size_list_to_set.
Qed.

Lemma len_differs_true (vals : list Z) : len_differs vals = true <-> ~ NoDup vals.
Proof.
  rewrite <- len_differs_false. destruct (len_differs vals); split; congruence.
Qed.

Lemma existsb_false {A} (f : A -> bool) (l : list A) :
  existsb f l = false <-> forall x, x ∈ l -> f x = false.
Proof.
  induction l as [|a l IH]; simpl.
  - split; [intros _ x Hx; by apply elem_of_nil in Hx|done].
  - rewrite orb_false_iff, IH. split.
    + intros [Ha Hl] x [->|Hx]%elem_of_cons; auto.
    + intros H. split; [apply H; left|intros x Hx; apply H; by right].
Qed.

Lemma existsb_true {A} (f : A -> bool) (l : list A) :
  existsb f l = true <-> exists x, x ∈ l /\ f x = true.
Proof.
  rewrite existsb_exists. split; intros (x & Hx & Hf); exists x; split; auto;
    by apply list_elem_of_In.
Qed.

Lemma row_values_at sudoku r : row_values sudoku r = values_at sudoku (row_cells r).
Proof. reflexivity. Qed.

Lemma col_values_at sudoku c : col_values sudoku c = values_at sudoku (col_cells c).
Proof. reflexivity. Qed.

Lemma box_values_at sudoku r0 c0 : box_values sudoku r0 c0 = values_at sudoku (box_cells r0 c0).
Proof. reflexivity. Qed.

Lemma Forall_units (P : list cell -> Prop) :
  (forall u, u ∈ units -> P u) <->
  (forall i, (i < 9)%nat -> P (row_cells i)) /\
  (forall i, (i < 9)%nat -> P (col_cells i)) /\
  (forall br bc, (br < 3)%nat -> (bc < 3)%nat -> P (box_cells (br * 3) (bc * 3))).
Proof.
  unfold units. split.
  - intros H. repeat split.
    + intros i Hi. apply H. apply elem_of_app. left.
      apply list_elem_of_fmap_2, elem_of_seq. lia.
    + intros i Hi. apply H. apply elem_of_app. right. apply elem_of_app. left.
      apply list_elem_of_fmap_2, elem_of_seq. lia.
    + intros br bc Hbr Hbc. apply H. apply elem_of_app. right. apply elem_of_app. right.
      apply list_elem_of_bind. exists br. split; [|apply elem_of_seq; lia].
      apply list_elem_of_bind. exists bc. split; [|apply elem_of_seq; lia].
      by apply list_elem_of_singleton.
  - intros (Hrow & Hcol & Hbox) u.
    rewrite !elem_of_app, !list_elem_of_fmap, list_elem_of_bind.
    intros [(i & -> & Hi)|[(i & -> & Hi)|(br & Hu & Hbr)]].
    + apply Hrow. apply elem_of_seq in Hi. lia.
    + apply Hcol. apply elem_of_seq in Hi. lia.
    + apply list_elem_of_bind in Hu as (bc & Hu & Hbc).
      apply list_elem_of_singleton in Hu as ->.
      apply elem_of_seq in Hbr, Hbc. apply Hbox; lia.
Qed.

(** [check_invalid] answers [False] exactly when no unit has a duplicate
    among its positive values. *)
Lemma check_invalid_false sudoku :
  check_invalid sudoku = false <-> forall u, u ∈ units -> NoDup (values_at sudoku u).
Proof.
  rewrite Forall_units. unfold check_invalid.
  destruct (existsb _ (seq 0 9)) eqn:Hlines.
  { split; [done|]. intros (Hrow & Hcol & _). exfalso.
    apply existsb_true in Hlines as (idx & Hidx%elem_of_seq & Hdup).
    apply orb_true_iff in Hdup as [Hdup|Hdup]; apply len_differs_true in Hdup; apply Hdup.
    - rewrite col_values_at. apply Hcol. lia.
    - rewrite row_values_at. apply Hrow. lia. }
  rewrite existsb_false in Hlines.
  destruct (existsb _ (seq 0 3)) eqn:Hboxes.
  { split; [done|]. intros (_ & _ & Hbox). exfalso.
    apply existsb_true in Hboxes as (br & Hbr%elem_of_seq & Hdup).
    apply existsb_true in Hdup as (bc & Hbc%elem_of_seq & Hdup).
    apply len_differs_true in Hdup. apply Hdup.
    rewrite box_values_at. apply Hbox; lia. }
  rewrite existsb_false in Hboxes.
  split; [intros _|done]. repeat split.
  - intros i Hi. specialize (Hlines i). rewrite elem_of_seq in Hlines.
    rewrite orb_false_iff in Hlines. apply len_differs_false, Hlines. lia.
  - intros i Hi. specialize (Hlines i). rewrite elem_of_seq in Hlines.
    rewrite orb_false_iff in Hlines. apply len_differs_false, Hlines. lia.
  - intros br bc Hbr Hbc. specialize (Hboxes br). rewrite elem_of_seq in Hboxes.
    specialize (Hboxes ltac:(lia)). rewrite existsb_false in Hboxes.
    apply len_differs_false, Hboxes, elem_of_seq. lia.
Qed.
(** ** Boards without conflict *)

Lemma values_at_cons sudoku p u :
  values_at sudoku (p :: u) =
  if decide (0 < cell_value sudoku p) then cell_value sudoku p :: values_at sudoku u
  else values_at sudoku u.
Proof. unfold values_at. rewrite fmap_cons, filter_cons. done. Qed.

Lemma NoDup_values_at sudoku u :
  NoDup u ->
  NoDup (values_at sudoku u) <->
  forall p q, p ∈ u -> q ∈ u -> p <> q ->
    0 < cell_value sudoku p -> cell_value sudoku p <> cell_value sudoku q.
Proof.
  induction 1 as [|x u Hx Hu IH].
  - split; [intros _ p q Hp; by apply elem_of_nil in Hp|constructor].
  - rewrite values_at_cons. split.
    + intros Hnd p q Hp Hq Hne Hpos Heq.
      assert (NoDup (values_at sudoku u)) as Hnd'
        by (destruct (decide _); [by apply NoDup_cons in Hnd as [_ ?]|done]).
      apply elem_of_cons in Hp as [->|Hp], Hq as [->|Hq]; try done.
      * rewrite decide_True in Hnd by done. apply NoDup_cons in Hnd as [Hout _].
        apply Hout, elem_of_values_at. eauto.
      * rewrite decide_True in Hnd by lia. apply NoDup_cons in Hnd as [Hout _].
        apply Hout, elem_of_values_at. split; [lia|]. eauto.
      * by apply (proj1 IH Hnd' p q).
    + intros Hall.
      assert (NoDup (values_at sudoku u)) as Hnd'.
      { apply IH. intros p q Hp Hq. apply Hall; by right. }
      case_decide; [|done]. apply NoDup_cons. split; [|done].
      intros (_ & q & Hq & Heq)%elem_of_values_at.
      apply (Hall x q); [by left|by right|set_solver|done|done].
Qed.

(** A duplicate among the positive values comes from two cells. *)
Lemma not_NoDup_values_at sudoku u :
  NoDup u -> ~ NoDup (values_at sudoku u) ->
  exists p q, p ∈ u /\ q ∈ u /\ p <> q /\
    0 < cell_value sudoku p /\ cell_value sudoku p = cell_value sudoku q.
Proof.
  induction 1 as [|x u Hx Hu IH]; intros Hdup.
  - exfalso. apply Hdup. constructor.
  - rewrite values_at_cons in Hdup.
    destruct (decide (NoDup (values_at sudoku u))) as [Hnd|Hnd].
    + case_decide; [|done].
      destruct (decide (cell_value sudoku x ∈ values_at sudoku u)) as [Hin|Hout].
      * apply elem_of_values_at in Hin as (_ & q & Hq & Heq).
        exists x, q. repeat split; [by left|by right|set_solver|done|done].
      * exfalso. apply Hdup. by apply NoDup_cons.
    + destruct (IH Hnd) as (p & q & Hp & Hq & Hrest).
      exists p, q. repeat split; [by right|by right|apply Hrest..].
Qed.

Lemma unit_NoDup u : u ∈ units -> NoDup u.
Proof. pose proof units_NoDup as H. rewrite Forall_forall in H. apply H. Qed.

Lemma unit_in_grid u p : u ∈ units -> p ∈ u -> p ∈ grid.
Proof.
  pose proof units_in_grid as H. rewrite Forall_forall in H.
  intros Hu. specialize (H u Hu). rewrite Forall_forall in H. apply H.
Qed.

(** Two cells of the grid are related exactly when some unit holds both. *)
Lemma related_units p q :
  p ∈ grid -> q ∈ grid -> p <> q ->
  related p q = true <-> exists u, u ∈ units /\ p ∈ u /\ q ∈ u.
Proof.
  intros [Hpr Hpc]%in_grid_elem [Hqr Hqc]%in_grid_elem _. rewrite related_spec.
  pose proof (div3_spec p.1) as Hp1. pose proof (div3_spec p.2) as Hp2.
  pose proof (div3_spec q.1) as Hq1. pose proof (div3_spec q.2) as Hq2.
  split.
  - pose proof (proj1 (Forall_units (fun u => u ∈ units)) (fun u H => H))
      as (Hrow & Hcol & Hbox).
    intros [Heq|[Heq|[Hr Hc]]].
    + exists (row_cells p.1). split; [by apply Hrow|].
      rewrite !elem_of_row_cells. lia.
    + exists (col_cells p.2). split; [by apply Hcol|].
      rewrite !elem_of_col_cells. lia.
    + exists (box_cells (p.1 / 3 * 3) (p.2 / 3 * 3)). split; [apply Hbox; lia|].
      rewrite !elem_of_box_cells. lia.
  - intros (u & Hu & Hpu & Hqu). revert u Hu Hpu Hqu.
    apply (Forall_units (fun u => p ∈ u -> q ∈ u -> _)). repeat split.
    + intros i _. rewrite !elem_of_row_cells. lia.
    + intros i _. rewrite !elem_of_col_cells. lia.
    + intros br bc _ _. rewrite !elem_of_box_cells. lia.
Qed.

(** The peers of a cell are the cells related to it (and the cell itself). *)
Lemma peers_related p q :
  p ∈ grid -> q ∈ grid -> q ∈ peers p <-> related p q = true.
Proof.
  intros [Hpr Hpc]%in_grid_elem [Hqr Hqc]%in_grid_elem.
  rewrite elem_of_peers, related_spec.
  pose proof (div3_spec p.1) as Hp1. pose proof (div3_spec p.2) as Hp2.
  pose proof (div3_spec q.1) as Hq1. pose proof (div3_spec q.2) as Hq2.
  lia.
Qed.

Lemma peers_in_grid p q : p ∈ grid -> q ∈ peers p -> q ∈ grid.
Proof.
  intros [Hpr Hpc]%in_grid_elem. rewrite elem_of_peers. intros Hq.
  apply in_grid_elem. unfold in_grid.
  pose proof (div3_spec p.1) as Hp1. pose proof (div3_spec p.2) as Hp2.
  lia.
Qed.

(** The validator accepts exactly the consistent boards. *)
Lemma check_invalid_consistent sudoku :
  check_invalid sudoku = false <-> consistent sudoku.
Proof.
  rewrite check_invalid_false. split.
  - intros Hunits p q Hp Hq Hne Hrel.
    apply related_units in Hrel as (u & Hu & Hpu & Hqu); [|done..].
    specialize (Hunits u Hu).
    by apply (proj1 (NoDup_values_at sudoku u (unit_NoDup u Hu)) Hunits).
  - intros Hcons u Hu. apply NoDup_values_at; [by apply unit_NoDup|].
    intros p q Hp Hq Hne. apply Hcons; eauto using unit_in_grid.
    apply related_units; eauto using unit_in_grid.
Qed.

Lemma has_repeat_units sudoku :
  has_repeat sudoku <-> exists u, u ∈ units /\ repeats sudoku u.
Proof.
  split.
  - pose proof (proj1 (Forall_units (fun u => u ∈ units)) (fun u H => H))
      as (Hrow & Hcol & Hbox).
    intros [(r & Hr & Hrep)|[(c & Hc & Hrep)|(br & bc & Hbr & Hbc & Hrep)]]; eauto.
  - intros (u & Hu & Hrep). revert u Hu Hrep.
    apply (Forall_units (fun u => repeats sudoku u -> has_repeat sudoku)).
    unfold has_repeat. repeat split; intros; eauto 10.
Qed.

(** ** Solved boards and completions *)

Lemma cell_value_set_eq sudoku p v :
  shape9 sudoku -> p ∈ grid -> cell_value (set_cell sudoku p.1 p.2 v) p = v.
Proof.
  intros Hs [Hr Hc]%in_grid_elem. unfold cell_value. by apply get_set_cell_eq.
Qed.

Lemma cell_value_set_ne sudoku x y v p :
  p <> (x, y) -> cell_value (set_cell sudoku x y v) p = cell_value sudoku p.
Proof.
  intros Hne. unfold cell_value. apply get_set_cell_ne. destruct p; simpl; congruence.
Qed.

Lemma row_unit r : (r < 9)%nat -> row_cells r ∈ units.
Proof.
  intros Hr. unfold units. apply elem_of_app. left.
  apply list_elem_of_fmap_2, elem_of_seq. lia.
Qed.

Lemma cell_in_row p : p ∈ grid -> p ∈ row_cells p.1.
Proof.
  intros [Hr Hc]%in_grid_elem. destruct p as [r c]. unfold row_cells.
  apply (list_elem_of_fmap_2 (fun i => (r, i))), elem_of_seq. simpl in *. lia.
Qed.

Lemma solved_range sudoku p :
  solved sudoku -> p ∈ grid -> 1 <= cell_value sudoku p <= 9.
Proof.
  intros [_ Hunits] Hp.
  assert (cell_value sudoku p ∈ digits) as Hd.
  { rewrite <- (Hunits (row_cells p.1)).
    - apply list_elem_of_fmap_2, cell_in_row, Hp.
    - apply row_unit. by apply in_grid_elem in Hp as [? _]. }
  unfold digits in Hd. apply elem_of_seqZ in Hd. lia.
Qed.

Lemma NoDup_fmap_ne {A B} (f : A -> B) (l : list A) x y :
  NoDup (f <$> l) -> x ∈ l -> y ∈ l -> x <> y -> f x <> f y.
Proof.
  induction l as [|a l IH]; intros Hnd Hx Hy Hne Heq.
  - by apply elem_of_nil in Hx.
  - rewrite fmap_cons in Hnd. apply NoDup_cons in Hnd as [Hout Hnd].
    apply elem_of_cons in Hx as [->|Hx], Hy as [->|Hy]; try done.
    + apply Hout. rewrite Heq. by apply list_elem_of_fmap_2.
    + apply Hout. rewrite <- Heq. by apply list_elem_of_fmap_2.
    + by apply IH.
Qed.

Lemma solved_consistent sudoku : solved sudoku -> consistent sudoku.
Proof.
  intros [_ Hunits] p q Hp Hq Hne Hrel _.
  apply related_units in Hrel as (u & Hu & Hpu & Hqu); [|done..].
  apply (NoDup_fmap_ne _ u); [|done..].
  rewrite (Hunits u Hu). apply NoDup_seqZ.
Qed.

(** A consistent board whose 81 entries are digits is solved. *)
Lemma consistent_full_solved sudoku :
  shape9 sudoku -> consistent sudoku ->
  (forall p, p ∈ grid -> 1 <= cell_value sudoku p <= 9) ->
  solved sudoku.
Proof.
  intros Hs Hcons Hfull. split; [done|]. intros u Hu.
  apply submseteq_length_Permutation.
  - apply NoDup_submseteq.
    + apply NoDup_fmap_2_strong; [|by apply unit_NoDup].
      intros p q Hp Hq Heq. destruct (decide (p = q)) as [|Hne]; [done|]. exfalso.
      assert (p ∈ grid) by eauto using unit_in_grid.
      assert (q ∈ grid) by eauto using unit_in_grid.
      apply (Hcons p q); try done.
      * apply related_units; eauto.
      * specialize (Hfull p ltac:(done)). lia.
    + intros v (p & -> & Hp)%list_elem_of_fmap.
      unfold digits. apply elem_of_seqZ.
      specialize (Hfull p (unit_in_grid _ _ Hu Hp)). lia.
  - rewrite length_fmap. pose proof units_length as Hlen.
    rewrite Forall_forall in Hlen. rewrite (Hlen u Hu). done.
Qed.

Lemma extends_refl sudoku : extends sudoku sudoku.
Proof. by intros p _ _. Qed.

(** A board that has a completion is consistent and holds only 0..9. *)
Lemma completion_consistent sudoku solution :
  completion sudoku solution -> consistent sudoku.
Proof.
  intros [Hsol Hext] p q Hp Hq Hne Hrel Hpos Heq.
  assert (cell_value solution p = cell_value sudoku p) as Hp' by (apply Hext; [done|lia]).
  assert (cell_value solution q = cell_value sudoku q) as Hq' by (apply Hext; [done|lia]).
  apply (solved_consistent _ Hsol p q); try done.
  - rewrite Hp'. lia.
  - congruence.
Qed.

Lemma completion_range sudoku solution p :
  completion sudoku solution -> p ∈ grid -> 0 <= cell_value sudoku p <= 9.
Proof.
  intros [Hsol Hext] Hp.
  destruct (decide (cell_value sudoku p = 0)) as [->|Hnz]; [lia|].
  rewrite <- (Hext p Hp Hnz). pose proof (solved_range _ p Hsol Hp). lia.
Qed.

(** ** The candidate loop *)

(** One call of [solver] on a queue that is not empty: the candidates are
    computed once, on the board as it is at entry, and the loop runs. *)
Lemma solver_step limit sudoku x y rest :
  exists candidate_vals,
    generate_candidates sudoku x y = Some candidate_vals /\
    solver (S limit) sudoku (Some ((x, y) :: rest)) =
    for_value (fun s z => solver limit s (Some z)) x y candidate_vals sudoku rest.
Proof. eexists. split; reflexivity. Qed.

(** What the loop does when every failing call hands back the board and the
    queue it was given: the candidates are tried in the order of the list,
    up to the first one whose call does not fail. *)
Lemma for_value_inv (call : board -> list cell -> outcome) x y sudoku rest :
  forall candidate_vals current,
  (exists w, current = set_cell sudoku x y w) ->
  (forall v s' z', v ∈ candidate_vals ->
     call (set_cell sudoku x y v) rest = Returned RetNone s' z' ->
     s' = set_cell sudoku x y v /\ z' = rest) ->
  match for_value call x y candidate_vals current rest with
  | RecursionError =>
      exists tried v later, candidate_vals = tried ++ v :: later /\
        (forall u, u ∈ tried ->
           call (set_cell sudoku x y u) rest = Returned RetNone (set_cell sudoku x y u) rest) /\
        call (set_cell sudoku x y v) rest = RecursionError
  | Returned RetSudoku s' z' =>
      exists tried v later, candidate_vals = tried ++ v :: later /\
        (forall u, u ∈ tried ->
           call (set_cell sudoku x y u) rest = Returned RetNone (set_cell sudoku x y u) rest) /\
        call (set_cell sudoku x y v) rest = Returned RetSudoku s' z'
  | Returned RetNone s' z' =>
      s' = set_cell sudoku x y 0 /\ z' = (x, y) :: rest /\
      forall u, u ∈ candidate_vals ->
        call (set_cell sudoku x y u) rest = Returned RetNone (set_cell sudoku x y u) rest
  end.
Proof.
  induction candidate_vals as [|value vals IH]; intros current [w ->] Hcall; simpl.
  - rewrite set_cell_set_cell. repeat split. intros u Hu. by apply elem_of_nil in Hu.
  - rewrite set_cell_set_cell.
    destruct (call (set_cell sudoku x y value) rest) as [|[] s1 z1] eqn:Hfirst.
    + exists [], value, vals. repeat split; [|done].
      intros u Hu. by apply elem_of_nil in Hu.
    + destruct (Hcall value s1 z1) as [-> ->]; [by left|done|].
      specialize (IH (set_cell sudoku x y value) (ex_intro _ value eq_refl)).
      assert (forall v s' z', v ∈ vals ->
                call (set_cell sudoku x y v) rest = Returned RetNone s' z' ->
                s' = set_cell sudoku x y v /\ z' = rest) as Hcall'.
      { intros v s' z' Hv. apply Hcall. by right. }
      specialize (IH Hcall').
      destruct (for_value call x y vals (set_cell sudoku x y value) rest) as [|[] s2 z2].
      * destruct IH as (tried & v & later & -> & Htried & Hv).
        exists (value :: tried), v, later. repeat split; [|done].
        intros u [->|Hu]%elem_of_cons; auto.
      * destruct IH as (-> & -> & Hall). repeat split.
        intros u [->|Hu]%elem_of_cons; auto.
      * destruct IH as (tried & v & later & -> & Htried & Hv).
        exists (value :: tried), v, later. repeat split; [|done].
        intros u [->|Hu]%elem_of_cons; auto.
    + exists [], value, vals. repeat split; [|done].
      intros u Hu. by apply elem_of_nil in Hu.
Qed.

(** ** Failure restores the state *)

Lemma queue_ok_step sudoku x y rest v :
  queue_ok sudoku ((x, y) :: rest) -> queue_ok (set_cell sudoku x y v) rest.
Proof.
  intros (Hs & [Hout Hnd]%NoDup_cons & Hq). repeat split.
  - apply shape9_set_cell, Hs.
  - apply shape9_set_cell, Hs.
  - done.
  - apply Hq. by right.
  - rewrite cell_value_set_ne by (intros ->; done). apply Hq. by right.
Qed.

Lemma solver_restores limit :
  forall sudoku zeroes sudoku' zeroes',
  queue_ok sudoku zeroes ->
  solver limit sudoku (Some zeroes) = Returned RetNone sudoku' zeroes' ->
  sudoku' = sudoku /\ zeroes' = zeroes.
Proof.
  induction limit as [|limit IH]; intros sudoku zeroes sudoku' zeroes' Hok Hrun; [done|].
  destruct zeroes as [|[x y] rest]; [done|].
  destruct (solver_step limit sudoku x y rest) as (l & _ & Hstep).
  rewrite Hstep in Hrun.
  pose proof (for_value_inv (fun s z => solver limit s (Some z)) x y sudoku rest l sudoku) as Hinv.
  assert (sudoku = set_cell sudoku x y 0) as Hzero.
  { destruct Hok as (Hs & _ & Hq). destruct (Hq (x, y)) as [[Hx Hy]%in_grid_elem Hv]; [by left|].
    rewrite <- Hv. symmetry. by apply set_cell_get. }
  rewrite Hrun in Hinv. destruct Hinv as (-> & -> & _).
  - by exists 0.
  - intros v s' z' _. apply IH. by apply queue_ok_step.
  - split; [symmetry; exact Hzero|reflexivity].
Qed.

(** ** Termination: one frame per queued cell, and one more *)

Lemma solver_returns limit :
  forall sudoku zeroes,
  queue_ok sudoku zeroes -> (length zeroes < limit)%nat ->
  solver limit sudoku (Some zeroes) <> RecursionError.
Proof.
  induction limit as [|limit IH]; intros sudoku zeroes Hok Hlen Hrun; [lia|].
  destruct zeroes as [|[x y] rest]; [done|].
  destruct (solver_step limit sudoku x y rest) as (l & _ & Hstep).
  rewrite Hstep in Hrun.
  pose proof (for_value_inv (fun s z => solver limit s (Some z)) x y sudoku rest l sudoku) as Hinv.
  rewrite Hrun in Hinv. destruct Hinv as (tried & v & later & _ & _ & Hv).
  - exists (get sudoku x y). symmetry.
    destruct Hok as (Hs & _ & Hq). destruct (Hq (x, y)) as [[Hx Hy]%in_grid_elem _]; [by left|].
    by apply set_cell_get.
  - intros u s' z' _. apply solver_restores. by apply queue_ok_step.
  - revert Hv. apply IH; [by apply queue_ok_step|]. simpl in Hlen. lia.
Qed.

(** ** The search is sound and complete *)

Lemma related_sym p q : related p q = true -> related q p = true.
Proof.
  unfold related.
  rewrite !orb_true_iff, !andb_true_iff, !bool_decide_eq_true. intuition congruence.
Qed.

Lemma search_state_queue_ok sudoku zeroes :
  search_state sudoku zeroes -> queue_ok sudoku zeroes.
Proof.
  intros [Hs _ _ Hnd Hq]. repeat split; [apply Hs..|done|by apply Hq|by apply Hq].
Qed.

(** A candidate of an empty cell is a digit that no peer holds. *)
Lemma candidate_fits sudoku x y l v :
  (x, y) ∈ grid -> generate_candidates sudoku x y = Some l ->
  v ∈ l <-> 1 <= v <= 9 /\ forall q, q ∈ peers (x, y) -> cell_value sudoku q <> v.
Proof.
  intros Hin Hl. destruct (candidates_spec sudoku x y Hin) as (l' & Hl' & _ & Hspec).
  rewrite Hl in Hl'. injection Hl' as <-. clear Hl. apply Hspec.
Qed.

(** Placing a candidate in the first queued cell keeps the state of the
    search well formed. *)
Lemma search_state_step sudoku x y rest l v :
  search_state sudoku ((x, y) :: rest) ->
  generate_candidates sudoku x y = Some l -> v ∈ l ->
  search_state (set_cell sudoku x y v) rest.
Proof.
  intros [Hs Hrange Hcons [Hout Hnd]%NoDup_cons Hq] Hl Hv.
  destruct (Hq (x, y)) as [[Hin Hzero] _]. { by left. }
  apply (candidate_fits _ _ _ _ _ Hin Hl) in Hv as [Hdigit Hfree]. clear Hl.
  assert (forall p, p <> (x, y) ->
            cell_value (set_cell sudoku x y v) p = cell_value sudoku p) as Hother
    by (intros; by apply cell_value_set_ne).
  assert (cell_value (set_cell sudoku x y v) (x, y) = v) as Hnew
    by (by apply (cell_value_set_eq sudoku (x, y))).
  split.
  - by apply shape9_set_cell.
  - intros p Hp. destruct (decide (p = (x, y))) as [->|Hne].
    + rewrite Hnew. lia.
    + rewrite Hother by done. by apply Hrange.
  - intros p q Hp Hq' Hne Hrel Hpos.
    destruct (decide (p = (x, y))) as [->|Hp'], (decide (q = (x, y))) as [->|Hq''].
    + exfalso. apply Hne. reflexivity.
    + rewrite Hnew, (Hother q) by done. intros Heq.
      apply (Hfree q); [|done]. by apply peers_related.
    + rewrite Hnew, (Hother p) by done. intros Heq.
      apply (Hfree p); [|done]. apply peers_related; [done..|]. by apply related_sym.
    + rewrite !Hother by done. rewrite Hother in Hpos by done. by apply Hcons.
  - done.
  - intros p. split.
    + intros Hp. assert (p <> (x, y)) by (intros ->; contradiction).
      rewrite Hother by done. apply Hq. by right.
    + intros [Hp Hz]. destruct (decide (p = (x, y))) as [->|Hne].
      * rewrite Hnew in Hz. lia.
      * rewrite Hother in Hz by done.
        destruct (Hq p) as [_ Hback]. specialize (Hback (conj Hp Hz)).
        by apply elem_of_cons in Hback as [|].
Qed.

Lemma search_state_nil_solved sudoku : search_state sudoku [] -> solved sudoku.
Proof.
  intros [Hs Hrange Hcons _ Hq]. apply consistent_full_solved; [done..|].
  intros p Hp. specialize (Hrange p Hp).
  assert (cell_value sudoku p <> 0).
  { intros Hz. destruct (Hq p) as [_ Hback]. specialize (Hback (conj Hp Hz)).
    by apply elem_of_nil in Hback. }
  lia.
Qed.

Lemma extends_step sudoku x y v solution :
  cell_value sudoku (x, y) = 0 ->
  extends (set_cell sudoku x y v) solution -> extends sudoku solution.
Proof.
  intros Hzero Hext p Hp Hnz.
  assert (p <> (x, y)) as Hne by (intros ->; done).
  rewrite <- (cell_value_set_ne sudoku x y v p Hne). apply Hext; [done|].
  by rewrite cell_value_set_ne.
Qed.

(** A board returned by [solver] is a completion of the board it was given. *)
Lemma solver_sound limit :
  forall sudoku zeroes solution zeroes',
  search_state sudoku zeroes ->
  solver limit sudoku (Some zeroes) = Returned RetSudoku solution zeroes' ->
  completion sudoku solution.
Proof.
  induction limit as [|limit IH]; intros sudoku zeroes solution zeroes' Hst Hrun; [done|].
  destruct zeroes as [|[x y] rest].
  { simpl in Hrun. injection Hrun as <- <-.
    split; [by apply search_state_nil_solved|apply extends_refl]. }
  destruct (solver_step limit sudoku x y rest) as (l & Hl & Hstep).
  rewrite Hstep in Hrun. clear Hstep.
  pose proof (search_state_queue_ok _ _ Hst) as Hok.
  pose proof (fun v => search_state_step _ _ _ _ _ v Hst Hl) as Hnext. clear Hl.
  pose proof (for_value_inv (fun s z => solver limit s (Some z)) x y sudoku rest l sudoku) as Hinv.
  destruct (st_queue _ _ Hst (x, y)) as [[Hin Hzero] _]. { by left. }
  rewrite Hrun in Hinv. destruct Hinv as (tried & v & later & -> & _ & Hv).
  - exists 0. rewrite <- Hzero. symmetry. apply in_grid_elem in Hin as [? ?].
    apply set_cell_get; [apply Hok|done..].
  - intros u s' z' _. apply solver_restores. by apply (queue_ok_step _ _ _ _ _ Hok).
  - assert (v ∈ tried ++ v :: later) as Hin' by (apply elem_of_app; right; left).
    destruct (IH _ _ _ _ (Hnext v Hin') Hv) as [Hsol Hext].
    split; [exact Hsol|]. by apply (extends_step _ x y v).
Qed.

(** The value a completion gives to an empty cell is among its candidates. *)
Lemma completion_candidate sudoku x y l solution :
  (x, y) ∈ grid -> cell_value sudoku (x, y) = 0 ->
  generate_candidates sudoku x y = Some l ->
  completion sudoku solution ->
  cell_value solution (x, y) ∈ l.
Proof.
  intros Hin Hzero Hl [Hsol Hext].
  apply (candidate_fits _ _ _ _ _ Hin Hl). clear Hl. split; [by apply solved_range|].
  intros q Hq Heq.
  pose proof (solved_range _ _ Hsol Hin) as Hv.
  assert (q ∈ grid) as Hqg by eauto using peers_in_grid.
  assert (q <> (x, y)) as Hne by (intros ->; lia).
  assert (cell_value solution q = cell_value sudoku q) as Hsq by (apply Hext; [done|lia]).
  apply (solved_consistent _ Hsol (x, y) q); try done; try lia; try congruence.
  by apply peers_related.
Qed.

Lemma completion_step sudoku x y solution :
  (x, y) ∈ grid -> shape9 sudoku ->
  completion sudoku solution ->
  completion (set_cell sudoku x y (cell_value solution (x, y))) solution.
Proof.
  intros Hin Hs [Hsol Hext]. split; [done|]. intros p Hp.
  destruct (decide (p = (x, y))) as [->|Hne].
  - by rewrite (cell_value_set_eq sudoku (x, y)).
  - rewrite cell_value_set_ne by done. by apply Hext.
Qed.

(** When [solver] fails, the board it was given has no completion. *)
Lemma solver_complete limit :
  forall sudoku zeroes sudoku' zeroes',
  search_state sudoku zeroes ->
  solver limit sudoku (Some zeroes) = Returned RetNone sudoku' zeroes' ->
  forall solution, ~ completion sudoku solution.
Proof.
  induction limit as [|limit IH]; intros sudoku zeroes sudoku' zeroes' Hst Hrun; [done|].
  destruct zeroes as [|[x y] rest]; [done|].
  destruct (solver_step limit sudoku x y rest) as (l & Hl & Hstep).
  rewrite Hstep in Hrun. clear Hstep.
  pose proof (search_state_queue_ok _ _ Hst) as Hok.
  pose proof (fun v => search_state_step _ _ _ _ _ v Hst Hl) as Hnext.
  destruct (st_queue _ _ Hst (x, y)) as [[Hin Hzero] _]. { by left. }
  pose proof (fun solution => completion_candidate _ _ _ _ solution Hin Hzero Hl) as Hcand.
  clear Hl.
  pose proof (for_value_inv (fun s z => solver limit s (Some z)) x y sudoku rest l sudoku) as Hinv.
  rewrite Hrun in Hinv. destruct Hinv as (_ & _ & Hall).
  - exists 0. rewrite <- Hzero. symmetry. apply in_grid_elem in Hin as [? ?].
    apply set_cell_get; [apply Hok|done..].
  - intros u s' z' _. apply solver_restores. by apply (queue_ok_step _ _ _ _ _ Hok).
  - intros solution Hcompl.
    pose proof (Hcand solution Hcompl) as Hv.
    apply (IH _ _ _ _ (Hnext _ Hv) (Hall _ Hv) solution).
    apply completion_step; [exact Hin|apply Hok|exact Hcompl].
Qed.

(** ** The validator, in terms of repeated values *)

Lemma check_invalid_true sudoku :
  check_invalid sudoku = true <-> exists u, u ∈ units /\ ~ NoDup (values_at sudoku u).
Proof.
  split.
  - intros Htrue.
    assert (~ Forall (fun u => NoDup (values_at sudoku u)) units) as Hnot.
    { rewrite Forall_forall, <- check_invalid_false. by rewrite Htrue. }
    apply not_Forall_Exists in Hnot; [|apply _].
    apply Exists_exists in Hnot as (u & Hu & Hdup). eauto.
  - intros (u & Hu & Hdup). destruct (check_invalid sudoku) eqn:Hc; [done|].
    exfalso. apply Hdup. by apply check_invalid_false.
Qed.

(** On a board without negative entries, a positive value and a non-zero
    value are the same thing. *)
Lemma check_invalid_has_repeat sudoku :
  (forall p, p ∈ grid -> 0 <= cell_value sudoku p) ->
  check_invalid sudoku = true <-> has_repeat sudoku.
Proof.
  intros Hnonneg. rewrite check_invalid_true, has_repeat_units. split.
  - intros (u & Hu & Hdup). exists u. split; [done|].
    destruct (not_NoDup_values_at sudoku u (unit_NoDup u Hu) Hdup)
      as (p & q & Hp & Hq & Hne & Hpos & Heq).
    exists p, q. repeat split; try done. lia.
  - intros (u & Hu & p & q & Hp & Hq & Hne & Hnz & Heq). exists u. split; [done|].
    intros Hnd. apply (proj1 (NoDup_values_at sudoku u (unit_NoDup u Hu)) Hnd p q); try done.
    specialize (Hnonneg p (unit_in_grid u p Hu Hp)). lia.
Qed.

(** ** The queue built by [find_spaces] *)

Lemma find_spaces_zero_cells sudoku :
  find_spaces sudoku = match zero_cells sudoku with [] => None | q => Some q end.
Proof. unfold find_spaces, zero_cells. by destruct (filter _ grid). Qed.

Lemma elem_of_zero_cells sudoku p :
  p ∈ zero_cells sudoku <-> p ∈ grid /\ cell_value sudoku p = 0.
Proof. unfold zero_cells. rewrite list_elem_of_filter. unfold cell_value. tauto. Qed.

Lemma zero_cells_length sudoku : (length (zero_cells sudoku) <= 81)%nat.
Proof. unfold zero_cells. etrans; [apply length_filter|]. reflexivity. Qed.

Lemma entries_cell_value sudoku :
  entries_0_9 sudoku <-> forall p, p ∈ grid -> 0 <= cell_value sudoku p <= 9.
Proof.
  split.
  - intros H p [Hr Hc]%in_grid_elem. by apply H.
  - intros H r c Hr Hc. apply (H (r, c)). by apply in_grid_elem.
Qed.

(** What [sudoku_solver] hands to [solver] is a well-formed search state. *)
Lemma initial_search_state sudoku :
  shape9 sudoku -> entries_0_9 sudoku -> check_invalid sudoku = false ->
  search_state sudoku (zero_cells sudoku).
Proof.
  intros Hs Hrange Hvalid. split.
  - done.
  - by apply entries_cell_value.
  - by apply check_invalid_consistent.
  - apply NoDup_filter, grid_NoDup.
  - apply elem_of_zero_cells.
Qed.

Lemma solved_not_failure solution : solved solution -> solution <> failure.
Proof.
  intros Hsol ->. pose proof (solved_range failure (0%nat, 0%nat) Hsol) as H.
  assert ((0%nat, 0%nat) ∈ grid) as Hin by (apply in_grid_elem; split; simpl; lia).
  specialize (H Hin). vm_compute in H. destruct H as [H _]. by apply H.
Qed.

(** ** The first completion reached *)

Lemma solver_first_reached limit :
  forall sudoku zeroes solution zeroes',
  search_state sudoku zeroes ->
  solver limit sudoku (Some zeroes) = Returned RetSudoku solution zeroes' ->
  forall other, completion sudoku other -> reached_before sudoku zeroes solution other.
Proof.
  induction limit as [|limit IH]; intros sudoku zeroes solution zeroes' Hst Hrun; [done|].
  destruct zeroes as [|[x y] rest]; [done|].
  destruct (solver_step limit sudoku x y rest) as (l & Hl & Hstep).
  rewrite Hstep in Hrun. clear Hstep.
  pose proof (search_state_queue_ok _ _ Hst) as Hok.
  pose proof (fun v => search_state_step _ _ _ _ _ v Hst Hl) as Hnext.
  destruct (st_queue _ _ Hst (x, y)) as [[Hin Hzero] _]. { by left. }
  pose proof (fun s => completion_candidate _ _ _ _ s Hin Hzero Hl) as Hcand.
  pose proof (fun v => proj1 (candidate_fits _ _ _ _ v Hin Hl)) as Hfit.
  pose proof (for_value_inv (fun s z => solver limit s (Some z)) x y sudoku rest l sudoku) as Hinv.
  rewrite Hrun in Hinv. destruct Hinv as (tried & v & later & Hsplit & Htried & Hv).
  - exists 0. rewrite <- Hzero. symmetry. apply in_grid_elem in Hin as [? ?].
    apply set_cell_get; [apply Hok|done..].
  - intros u s' z' _. apply solver_restores. by apply (queue_ok_step _ _ _ _ _ Hok).
  - assert (v ∈ l) as Hvl by (rewrite Hsplit; apply elem_of_app; right; left).
    assert (get solution x y = v) as Hfirst.
    { destruct (solver_sound _ _ _ _ _ (Hnext v Hvl) Hv) as [_ Hext].
      specialize (Hext (x, y) Hin).
      rewrite (cell_value_set_eq sudoku (x, y)) in Hext by (exact Hin || apply Hok).
      apply Hext. destruct (Hfit v Hvl) as [? _]. lia. }
    intros other Hother. simpl. rewrite Hfirst.
    pose proof (Hcand other Hother) as Hvo.
    pose proof (completion_step sudoku x y other Hin (st_shape _ _ Hst) Hother) as Hstep.
    change (cell_value other (x, y)) with (get other x y) in Hvo, Hstep.
    destruct (decide (get other x y = v)) as [Heq|Hne].
    + rewrite Heq in Hstep. by apply (IH _ _ _ _ (Hnext v Hvl) Hv).
    + exists l, tried, later. split; [exact Hl|]. split; [exact Hsplit|].
      clear Hl. rewrite Hsplit in Hvo.
      apply elem_of_app in Hvo as [Hvo|Hvo].
      * exfalso. apply (solver_complete _ _ _ _ _ (Hnext _ ltac:(rewrite Hsplit; apply elem_of_app; by left)) (Htried _ Hvo) other Hstep).
      * apply elem_of_cons in Hvo as [Hvo|Hvo]; [contradiction|exact Hvo].
Qed.

(** ** The store-based solver does what the state-passing one does *)

Lemma heap_insert_board (h : gmap positive Heap.object) ls lz b1 q1 b2 :
  ls <> lz ->
  <[ls := Heap.Nested b2]> (<[lz := Heap.Cells q1]> (<[ls := Heap.Nested b1]> h))
  = <[lz := Heap.Cells q1]> (<[ls := Heap.Nested b2]> h).
Proof.
  intros Hne. rewrite (insert_insert_ne _ ls lz) by done. by rewrite insert_insert_eq.
Qed.

(** The loop over the store does what the state-passing loop does. *)
Lemma for_value_sim (h : gmap positive Heap.object) ls lz x y
    (call : board -> list cell -> outcome) (hcall : gmap positive Heap.object -> Heap.outcome) :
  ls <> lz ->
  (forall b q, hcall (<[lz := Heap.Cells q]> (<[ls := Heap.Nested b]> h))
               = lift_outcome h ls lz (call b q)) ->
  forall candidate_vals b q,
  Heap.for_value hcall ls lz x y candidate_vals
    (<[lz := Heap.Cells q]> (<[ls := Heap.Nested b]> h))
  = lift_outcome h ls lz (for_value call x y candidate_vals b q).
Proof.
  intros Hne Hcall. induction candidate_vals as [|value vals IH]; intros b q; simpl.
  - rewrite lookup_insert_ne, !lookup_insert_eq by done.
    rewrite heap_insert_board by done. f_equal.
    rewrite insert_insert_eq. done.
  - rewrite lookup_insert_ne, lookup_insert_eq by done.
    rewrite heap_insert_board by done. rewrite Hcall.
    destruct (call (set_cell b x y value) q) as [|[] b' q']; simpl; [done| |done].
    apply IH.
Qed.

Lemma solver_sim limit :
  forall (h : gmap positive Heap.object) ls lz b q,
  ls <> lz ->
  Heap.solver limit (<[lz := Heap.Cells q]> (<[ls := Heap.Nested b]> h)) ls (Some lz)
  = lift_outcome h ls lz (solver limit b (Some q)).
Proof.
  induction limit as [|limit IH]; intros h ls lz b q Hne; [done|].
  cbn [Heap.solver]. rewrite lookup_insert_eq.
  destruct q as [|[x y] rest]; [done|].
  rewrite insert_insert_eq, lookup_insert_ne, lookup_insert_eq by done.
  destruct (solver_step limit b x y rest) as (l & Hl & ->). rewrite Hl. clear Hl.
  apply for_value_sim; [done|]. intros b' q'. by apply IH.
Qed.

(** ** The entry point *)

Lemma solver_find_spaces_zero_cells limit sudoku :
  solver limit sudoku (find_spaces sudoku) = solver limit sudoku (Some (zero_cells sudoku)).
Proof.
  rewrite find_spaces_zero_cells. destruct limit; [done|]. by destruct (zero_cells sudoku).
Qed.

(** The three ways a run of [sudoku_solver] can go. *)
Lemma sudoku_solver_run limit sudoku :
  shape9 sudoku -> entries_0_9 sudoku -> (length (zero_cells sudoku) < limit)%nat ->
  (check_invalid sudoku = true /\ sudoku_solver limit sudoku = Array failure) \/
  (check_invalid sudoku = false /\ (forall s, ~ completion sudoku s) /\
   sudoku_solver limit sudoku = Array failure) \/
  (check_invalid sudoku = false /\
   exists a, completion sudoku a /\ sudoku_solver limit sudoku = Array a /\
     forall other, completion sudoku other ->
       reached_before sudoku (zero_cells sudoku) a other).
Proof.
  intros Hs Hrange Hlimit. unfold sudoku_solver.
  destruct (check_invalid sudoku) eqn:Hc; [by left|right].
  pose proof (initial_search_state sudoku Hs Hrange Hc) as Hst.
  rewrite solver_find_spaces_zero_cells.
  destruct (solver limit sudoku (Some (zero_cells sudoku))) as [|[] b' q'] eqn:Hrun.
  - exfalso. revert Hrun. apply solver_returns; [|done]. by apply search_state_queue_ok.
  - left. split; [done|]. split; [|done]. by eapply solver_complete.
  - right. split; [done|]. exists b'. split; [by eapply solver_sound|]. split; [done|].
    by eapply solver_first_reached.
Qed.

Lemma zero_cells_nil sudoku :
  (forall p, p ∈ grid -> cell_value sudoku p <> 0) -> zero_cells sudoku = [].
Proof.
  intros Hfull. destruct (zero_cells sudoku) as [|p q] eqn:Hz; [done|]. exfalso.
  assert (p ∈ zero_cells sudoku) as Hp by (rewrite Hz; left).
  apply elem_of_zero_cells in Hp as [Hp Hzero]. by apply (Hfull p).
Qed.

Lemma sudoku_solver_full limit sudoku :
  (forall p, p ∈ grid -> cell_value sudoku p <> 0) -> check_invalid sudoku = false ->
  sudoku_solver (S limit) sudoku = Array sudoku.
Proof.
  intros Hfull Hc. unfold sudoku_solver. rewrite Hc, find_spaces_zero_cells.
  by rewrite (zero_cells_nil sudoku Hfull).
Qed.

Lemma zero_cells_queue_ok sudoku : shape9 sudoku -> queue_ok sudoku (zero_cells sudoku).
Proof.
  intros Hs. split; [done|]. split; [apply NoDup_filter, grid_NoDup|].
  intros p Hp. by apply elem_of_zero_cells.
Qed.

(** ** The claims *)

(** C1.  On a 9x9 board with entries in 0..9, [sudoku_solver] returns a
    solved board that agrees with the input on its non-zero cells, or the
    grid of -1; it returns the grid of -1 exactly when the input has a
    repeated non-zero value in a row, column or box, or has none but admits
    no completion.  [limit] is the number of frames left to [solver]; 82
    are enough. *)
Theorem sudoku_solver_solved_or_sentinel limit sudoku :
  shape9 sudoku -> entries_0_9 sudoku -> (81 < limit)%nat ->
  exists a, sudoku_solver limit sudoku = Array a /\
    (completion sudoku a \/ a = failure) /\
    (a = failure <->
     has_repeat sudoku \/ (~ has_repeat sudoku /\ ~ exists s, completion sudoku s)).
Proof.
  intros Hs Hrange Hlimit.
  assert (check_invalid sudoku = true <-> has_repeat sudoku) as Hrep.
  { apply check_invalid_has_repeat. intros p Hp.
    by apply (proj1 (entries_cell_value sudoku) Hrange p Hp). }
  pose proof (zero_cells_length sudoku) as Hlen.
  destruct (sudoku_solver_run limit sudoku Hs Hrange ltac:(lia))
    as [[Hc Hrun]|[(Hc & Hnone & Hrun)|(Hc & a & Hcompl & Hrun & _)]].
  - exists failure. split; [done|]. split; [by right|].
    split; [intros _; left; by apply Hrep|done].
  - exists failure. split; [done|]. split; [by right|].
    split; [intros _; right|done]. split.
    + rewrite <- Hrep. congruence.
    + intros [s Hcompl]. by apply (Hnone s).
  - exists a. split; [done|]. split; [by left|].
    pose proof (solved_not_failure a (proj1 Hcompl)) as Hnf. split; [done|].
    intros [Hr|[_ Hno]].
    + apply Hrep in Hr. congruence.
    + exfalso. apply Hno. by exists a.
Qed.

(** C2.  When the input board has exactly one completion, [sudoku_solver]
    returns it. *)
Theorem sudoku_solver_unique_solution limit sudoku solution :
  shape9 sudoku -> (81 < limit)%nat ->
  completion sudoku solution ->
  (forall s, completion sudoku s -> s = solution) ->
  sudoku_solver limit sudoku = Array solution.
Proof.
  intros Hs Hlimit Hcompl Huniq.
  assert (entries_0_9 sudoku) as Hrange.
  { apply entries_cell_value. intros p Hp. by apply (completion_range sudoku solution). }
  assert (check_invalid sudoku = false) as Hvalid.
  { apply check_invalid_consistent. by apply (completion_consistent sudoku solution). }
  pose proof (zero_cells_length sudoku) as Hlen.
  destruct (sudoku_solver_run limit sudoku Hs Hrange ltac:(lia))
    as [[Hc Hrun]|[(Hc & Hnone & Hrun)|(Hc & a & Ha & Hrun & _)]].
  - congruence.
  - by destruct (Hnone solution).
  - by rewrite Hrun, (Huniq a Ha).
Qed.

(** C4.  On a 9x9 board with entries in 0..9, [check_invalid] answers
    [True] exactly when some row, column or 3x3 box contains a repeated
    non-zero value; it answers [False] on a board of zeros and on a solved
    board.  It is a function of the contents of the board. *)
Theorem check_invalid_iff_repeat sudoku :
  shape9 sudoku -> entries_0_9 sudoku ->
  (check_invalid sudoku = true <-> has_repeat sudoku) /\
  ((forall p, p ∈ grid -> cell_value sudoku p = 0) -> check_invalid sudoku = false) /\
  (solved sudoku -> check_invalid sudoku = false).
Proof.
  intros Hs Hrange.
  assert (check_invalid sudoku = true <-> has_repeat sudoku) as Hrep.
  { apply check_invalid_has_repeat. intros p Hp.
    by apply (proj1 (entries_cell_value sudoku) Hrange p Hp). }
  split; [done|]. split.
  - intros Hzero. apply check_invalid_consistent. intros p q Hp _ _ _ Hpos.
    rewrite (Hzero p Hp) in Hpos. lia.
  - intros Hsol. by apply check_invalid_consistent, solved_consistent.
Qed.

(** C5.  For a cell of the grid holding 0, the values returned by
    [generate_candidates] are the digits 1..9 minus the non-zero values of
    the cell's row, column and box (the box with top-left corner
    [(row - row mod 3, col - col mod 3)]); each is listed once. *)
Theorem generate_candidates_complement sudoku row col :
  shape9 sudoku -> (row < 9)%nat -> (col < 9)%nat -> get sudoku row col = 0 ->
  exists l, generate_candidates sudoku row col = Some l /\ NoDup l /\
    forall v, v ∈ l <->
      v ∈ digits /\
      ~ exists q, q ∈ row_cells row ++ col_cells col
                      ++ box_cells (row - row mod 3) (col - col mod 3) /\
                  cell_value sudoku q <> 0 /\ cell_value sudoku q = v.
Proof.
  intros _ Hrow Hcol _.
  assert ((row, col) ∈ grid) as Hin by (by apply in_grid_elem).
  destruct (candidates_spec sudoku row col Hin) as (l & Hl & Hnd & Hspec).
  exists l. split; [exact Hl|]. clear Hl. split; [done|]. intros v. rewrite Hspec.
  unfold digits. rewrite elem_of_seqZ. split.
  - intros [Hv Hfree]. split; [lia|]. intros (q & Hq & _ & Heq).
    apply (Hfree q); [|done]. unfold peers. cbn [fst snd].
    rewrite !elem_of_app in Hq |- *. tauto.
  - intros [Hv Hfree]. split; [lia|]. intros q Hq Heq. apply Hfree. exists q.
    split; [|split; [lia|done]]. unfold peers in Hq. cbn [fst snd] in Hq.
    rewrite !elem_of_app in Hq |- *. tauto.
Qed.

(** C6.  A board without zero that the validator accepts is returned as it
    is; hence [sudoku_solver] applied to a solved board it returned gives
    that board again. *)
Theorem sudoku_solver_fixes_solved limit sudoku :
  shape9 sudoku -> (81 < limit)%nat ->
  ((forall p, p ∈ grid -> cell_value sudoku p <> 0) -> check_invalid sudoku = false ->
   sudoku_solver limit sudoku = Array sudoku) /\
  (forall input, shape9 input -> entries_0_9 input ->
     sudoku_solver limit input = Array sudoku -> sudoku <> failure ->
     sudoku_solver limit sudoku = Array sudoku).
Proof.
  intros Hs Hlimit. destruct limit as [|limit]; [lia|]. split.
  - apply sudoku_solver_full.
  - intros input Hsi Hri Hrun Hnf.
    pose proof (zero_cells_length input) as Hlen.
    destruct (sudoku_solver_run (S limit) input Hsi Hri ltac:(lia))
      as [[Hc Hrun']|[(Hc & Hnone & Hrun')|(Hc & a & [Hsol Hext] & Hrun' & _)]];
      rewrite Hrun in Hrun'; injection Hrun' as ->; try done.
    apply sudoku_solver_full.
    + intros p Hp. pose proof (solved_range a p Hsol Hp). lia.
    + by apply check_invalid_consistent, solved_consistent.
Qed.

(** C7.  When a call of [solver] made on a 9x9 board and a queue of
    distinct empty cells of it returns [None], the board and the queue hold
    what they held at entry: the popped cell is 0 again and its coordinate
    is back at the front of the queue. *)
Theorem solver_failure_restores limit sudoku zeroes sudoku' zeroes' :
  queue_ok sudoku zeroes ->
  solver limit sudoku (Some zeroes) = Returned RetNone sudoku' zeroes' ->
  sudoku' = sudoku /\ zeroes' = zeroes /\
  exists x y rest, zeroes' = (x, y) :: rest /\ get sudoku' x y = 0.
Proof.
  intros Hok Hrun. destruct (solver_restores limit _ _ _ _ Hok Hrun) as [-> ->].
  split; [done|]. split; [done|].
  destruct limit as [|limit]; [done|]. destruct zeroes as [|[x y] rest]; [done|].
  exists x, y, rest. split; [done|]. destruct Hok as (_ & _ & Hq).
  apply (Hq (x, y)). by left.
Qed.

(** C8.  [generate_candidates] returns a list, never [None]; a call of
    [solver] on a non-empty queue therefore always runs the candidate loop,
    never the branch guarded by [candidate_vals == None]. *)
Theorem generate_candidates_never_None sudoku row col :
  generate_candidates sudoku row col <> None /\
  forall limit rest, exists candidate_vals,
    generate_candidates sudoku row col = Some candidate_vals /\
    solver (S limit) sudoku (Some ((row, col) :: rest)) =
    for_value (fun s z => solver limit s (Some z)) row col candidate_vals sudoku rest.
Proof.
  split; [done|]. intros limit rest. apply solver_step.
Qed.

(** C9.  On a 9x9 board and the queue [find_spaces] builds from it, [solver]
    returns, and it needs no more frames than one per empty cell (at most
    81) besides the frame of the call that finds the queue empty: the
    nested calls are never deeper than the number of empty cells. *)
Theorem solver_depth_bounded limit sudoku :
  shape9 sudoku -> (length (zero_cells sudoku) < limit)%nat ->
  (length (zero_cells sudoku) <= 81)%nat /\
  exists r sudoku' zeroes',
    solver limit sudoku (find_spaces sudoku) = Returned r sudoku' zeroes'.
Proof.
  intros Hs Hlimit. split; [apply zero_cells_length|].
  rewrite solver_find_spaces_zero_cells.
  destruct (solver limit sudoku (Some (zero_cells sudoku))) as [|r b' q'] eqn:Hrun; [|eauto].
  exfalso. revert Hrun. apply solver_returns; [|done]. by apply zero_cells_queue_ok.
Qed.

(** ** The caller's array *)

Lemma find_spaces_Some sudoku q : find_spaces sudoku = Some q -> q = zero_cells sudoku.
Proof.
  rewrite find_spaces_zero_cells. destruct (zero_cells sudoku); [done|]. by intros [= <-].
Qed.

Lemma heap_fresh_ne (h : gmap positive Heap.object) k o :
  h !! k = Some o -> k <> fresh (dom h).
Proof.
  intros Hk ->. pose proof (is_fresh (dom h)) as Hfresh.
  apply not_elem_of_dom in Hfresh. congruence.
Qed.

Lemma heap_alloc_subseteq (h : gmap positive Heap.object) o :
  h ⊆ <[fresh (dom h) := o]> h.
Proof. apply insert_subseteq, not_elem_of_dom, is_fresh. Qed.

(** C10.  [sudoku_solver] leaves the caller's array as it was: the array
    returned is a new object, every object that existed before the call
    holds what it held, and the new array holds the grid computed by the
    state-passing [sudoku_solver] on the contents of the input. *)
Theorem sudoku_solver_leaves_input limit (h : gmap positive Heap.object) sudoku a :
  h !! sudoku = Some (Heap.Ndarray a) -> shape9 a ->
  (length (zero_cells a) < limit)%nat ->
  exists out h' g,
    Heap.sudoku_solver limit h sudoku = Heap.Returned (Some out) h' /\
    h' !! sudoku = Some (Heap.Ndarray a) /\
    (forall k o, h !! k = Some o -> h' !! k = Some o) /\
    h !! out = None /\
    h' !! out = Some (Heap.Ndarray g) /\
    sudoku_solver limit a = Array g.
Proof.
  intros Hin Hs Hlimit.
  assert (forall h' out g,
            h ⊆ h' -> h !! out = None -> h' !! out = Some (Heap.Ndarray g) ->
            sudoku_solver limit a = Array g ->
            exists out0 h0 g0,
              Heap.Returned (Some out) h' = Heap.Returned (Some out0) h0 /\
              h0 !! sudoku = Some (Heap.Ndarray a) /\
              (forall k o, h !! k = Some o -> h0 !! k = Some o) /\
              h !! out0 = None /\ h0 !! out0 = Some (Heap.Ndarray g0) /\
              sudoku_solver limit a = Array g0) as Hfinish.
  { intros h' out g Hsub Hout Hg Hpure. exists out, h', g. split; [done|].
    split; [by apply (lookup_weaken h)|]. split; [|done].
    intros k o Hk. by apply (lookup_weaken h). }
  unfold Heap.sudoku_solver. rewrite Hin. unfold Heap.alloc.
  cbv beta iota zeta.
  set (lf := fresh (dom h)).
  set (h1 := <[lf := Heap.Ndarray failure]> h).
  assert (h ⊆ h1) as Hsub1 by apply heap_alloc_subseteq.
  assert (h !! lf = None) as Hlf by apply not_elem_of_dom, is_fresh.
  assert (h1 !! lf = Some (Heap.Ndarray failure)) as Hlf1 by apply lookup_insert_eq.
  destruct (check_invalid a) eqn:Hc.
  { eapply Hfinish; [exact Hsub1|exact Hlf|exact Hlf1|].
    unfold sudoku_solver. by rewrite Hc. }
  set (ls := fresh (dom h1)).
  set (h2 := <[ls := Heap.Nested a]> h1).
  assert (h1 !! ls = None) as Hls by apply not_elem_of_dom, is_fresh.
  assert (h1 ⊆ h2) as Hsub2 by apply heap_alloc_subseteq.
  destruct limit as [|limit]; [lia|].
  destruct (find_spaces a) as [q|] eqn:Hfind.
  - apply find_spaces_Some in Hfind. subst q.
    assert (forall g, match solver (S limit) a (Some (zero_cells a)) with
                      | Returned RetSudoku g' _ => g' = g
                      | Returned RetNone _ _ => failure = g
                      | RecursionError => False
                      end -> sudoku_solver (S limit) a = Array g) as Hpure.
    { intros g Hg. unfold sudoku_solver.
      rewrite Hc, solver_find_spaces_zero_cells.
      destruct (solver (S limit) a (Some (zero_cells a))) as [|[] ? ?]; [done|by subst..]. }
    set (lz := fresh (dom h2)).
    assert (h2 !! lz = None) as Hlz by apply not_elem_of_dom, is_fresh.
    assert (ls <> lz) as Hne.
    { intros Heq. rewrite <- Heq in Hlz. unfold h2 in Hlz.
      by rewrite lookup_insert_eq in Hlz. }
    assert (h1 !! lz = None) as Hlz1.
    { unfold h2 in Hlz. by rewrite lookup_insert_ne in Hlz. }
    unfold h2. rewrite solver_sim by done.
    assert (forall b' q', h1 ⊆ <[lz := Heap.Cells q']> (<[ls := Heap.Nested b']> h1)) as Hsub3.
    { intros b' q'. etrans; [apply (insert_subseteq _ ls); exact Hls|].
      apply insert_subseteq. by rewrite lookup_insert_ne. }
    destruct (solver (S limit) a (Some (zero_cells a))) as [|[] b' q'] eqn:Hrun; simpl.
    + exfalso. revert Hrun. apply solver_returns; [|done]. by apply zero_cells_queue_ok.
    + eapply Hfinish; [|exact Hlf| |by apply Hpure].
      * etrans; [exact Hsub1|apply Hsub3].
      * by apply (lookup_weaken h1).
    + rewrite lookup_insert_ne, lookup_insert_eq by done.
      set (h4 := <[lz := Heap.Cells q']> (<[ls := Heap.Nested b']> h1)).
      assert (h ⊆ h4) as Hsub4 by (etrans; [exact Hsub1|apply Hsub3]).
      eapply Hfinish; [| |apply lookup_insert_eq|by apply Hpure].
      * etrans; [exact Hsub4|apply heap_alloc_subseteq].
      * destruct (h !! fresh (dom h4)) as [o|] eqn:Hout; [|done].
        exfalso. apply (lookup_weaken _ h4) in Hout; [|done].
        by apply heap_fresh_ne in Hout.
  - cbn [Heap.solver]. unfold h2 at 1. rewrite lookup_insert_eq.
    eapply Hfinish; [| |apply lookup_insert_eq|unfold sudoku_solver; by rewrite Hc, Hfind].
    + etrans; [exact Hsub1|]. etrans; [exact Hsub2|apply heap_alloc_subseteq].
    + destruct (h !! fresh (dom h2)) as [o|] eqn:Hout; [|done].
      exfalso. apply (lookup_weaken _ h2) in Hout; [|by etrans].
      by apply heap_fresh_ne in Hout.
Qed.

Lemma grid_scan_order : StronglySorted scan_before grid.
Proof. by_computation. Qed.

Lemma StronglySorted_filter {A} (R : relation A) (P : A -> Prop)
    `{!forall x, Decision (P x)} (l : list A) :
  StronglySorted R l -> StronglySorted R (filter P l).
Proof.
  induction 1 as [|x l Hl IH Hx]; [constructor|].
  rewrite filter_cons. destruct (decide (P x)); [|done].
  constructor; [done|]. rewrite Forall_forall in Hx |- *.
  intros y [_ Hy]%list_elem_of_filter. by apply Hx.
Qed.

Lemma zero_cells_scan_order sudoku : StronglySorted scan_before (zero_cells sudoku).
Proof. apply StronglySorted_filter, grid_scan_order. Qed.

(** ** The boards used as examples *)

Lemma grid_forall (P : cell -> Prop) : Forall P grid -> forall p, p ∈ grid -> P p.
Proof. apply Forall_forall. Qed.

(** A property of the 81 cells of a given board, decided by evaluation. *)
Ltac on_grid :=
  match goal with
  | |- forall p, p ∈ grid -> @?P p => apply (grid_forall P); by_computation
  end.

Ltac concrete_shape := split; [reflexivity|repeat constructor].
Ltac concrete_entries := apply (proj2 (entries_cell_value _)); on_grid.

Lemma example_solved_solved : solved example_solved.
Proof.
  apply consistent_full_solved.
  - concrete_shape.
  - apply check_invalid_consistent. vm_compute. reflexivity.
  - on_grid.
Qed.

Lemma example_puzzle_completion : completion example_puzzle example_solved.
Proof.
  split; [apply example_solved_solved|].
  unfold extends. on_grid.
Qed.

Lemma example_puzzle_unique s : completion example_puzzle s -> s = example_solved.
Proof.
  intros Hs. apply board_ext; [apply Hs|apply example_solved_solved|].
  intros r c Hr Hc.
  assert ((r, c) ∈ grid) as Hin by (by apply in_grid_elem).
  assert (Forall (fun p => p <> (0%nat, 0%nat) ->
            cell_value example_puzzle p <> 0 /\
            cell_value example_puzzle p = cell_value example_solved p) grid) as Hrest
    by by_computation.
  rewrite Forall_forall in Hrest.
  destruct (decide ((r, c) = (0%nat, 0%nat))) as [[= -> ->]|Hne].
  - assert (cell_value s (0%nat, 0%nat) ∈ [1]) as Hone.
    { apply (completion_candidate example_puzzle 0 0 [1] s);
        [exact Hin|vm_compute; reflexivity..|exact Hs]. }
    apply list_elem_of_singleton in Hone. exact Hone.
  - destruct (Hrest _ Hin Hne) as [Hnz Heq]. destruct Hs as [_ Hext].
    change (cell_value s (r, c) = cell_value example_solved (r, c)).
    rewrite <- Heq. by apply Hext.
Qed.

(** ** C3: the order in which the search proceeds *)

(** C3, as the code has it.  The empty cells are queued in the row-major
    scan order.  The candidates of a cell are tried in the order of the list
    [generate_candidates] returns: the iteration order of the set
    difference, which lists each candidate once and which the code does not
    sort.  The grid returned for a board with several completions is the
    first one reached in that order. *)
Theorem search_order_follows_candidate_lists limit sudoku :
  shape9 sudoku -> entries_0_9 sudoku -> check_invalid sudoku = false ->
  (81 < limit)%nat ->
  (StronglySorted scan_before (zero_cells sudoku) /\
   solver limit sudoku (find_spaces sudoku) = solver limit sudoku (Some (zero_cells sudoku))) /\
  (forall b row col, (row < 9)%nat -> (col < 9)%nat ->
     exists l, generate_candidates b row col = Some l /\
       l ≡ₚ filter (fun v => v ∉ values_at b (peers (row, col))) digits) /\
  (forall solution, sudoku_solver limit sudoku = Array solution -> solution <> failure ->
     completion sudoku solution /\
     forall other, completion sudoku other ->
       reached_before sudoku (zero_cells sudoku) solution other).
Proof.
  intros Hs Hrange Hc Hlimit. split; [|split].
  - split; [apply zero_cells_scan_order|apply solver_find_spaces_zero_cells].
  - intros b row col Hrow Hcol.
    assert ((row, col) ∈ grid) as Hin by (by apply in_grid_elem).
    destruct (candidates_peers b row col Hin) as (l & Hl & Hperm).
    exists l. split; [exact Hl|]. clear Hl. rewrite Hperm.
    erewrite list_filter_iff; [done|]. intros v. simpl.
    by rewrite elem_of_list_to_set.
  - intros solution Hrun Hnf.
    pose proof (zero_cells_length sudoku) as Hlen.
    destruct (sudoku_solver_run limit sudoku Hs Hrange ltac:(lia))
      as [[Hc' Hrun']|[(Hc' & Hnone & Hrun')|(Hc' & a & Hcompl & Hrun' & Hfirst)]];
      rewrite Hrun in Hrun'; injection Hrun' as ->; done.
Qed.

(** C3 as stated fails: the candidate list is not always ascending.  On
    the board on which the first five cells hold 1..5, the candidates of the
    sixth cell come as 8, 9, 6, 7.  Accordingly the grid returned for the
    empty board has 8 in that cell, although the empty board also has a
    completion that agrees with it on the five cells before and has 6
    there. *)
Lemma candidates_not_ascending :
  generate_candidates five_placed 0 5 = Some [8; 9; 6; 7] /\
  ~ Sorted Z.le [8; 9; 6; 7] /\
  sudoku_solver 82 empty_board = Array empty_board_found /\
  get empty_board_found 0 5 = 8 /\
  completion empty_board example_solved /\
  get example_solved 0 5 = 6 /\
  (forall c, (c < 5)%nat -> get example_solved 0 c = get empty_board_found 0 c).
Proof.
  split; [vm_compute; reflexivity|]. split.
  { intros Hsorted. apply Sorted_inv in Hsorted as [Hsorted _].
    apply Sorted_inv in Hsorted as [_ Hhd]. apply HdRel_inv in Hhd. lia. }
  split; [vm_compute; reflexivity|]. split; [reflexivity|]. split.
  { split; [apply example_solved_solved|]. unfold extends. on_grid. }
  split; [reflexivity|].
  intros c Hc. do 5 (destruct c as [|c]; [reflexivity|]). lia.
Qed.

(** ** The theorems at given boards *)

Lemma sudoku_solver_solved_or_sentinel_witness :
  shape9 example_puzzle /\ entries_0_9 example_puzzle /\ (81 < 82)%nat /\
  exists a, sudoku_solver 82 example_puzzle = Array a /\
    (completion example_puzzle a \/ a = failure) /\
    (a = failure <->
     has_repeat example_puzzle \/
     (~ has_repeat example_puzzle /\ ~ exists s, completion example_puzzle s)).
Proof.
  assert (shape9 example_puzzle) as H1 by concrete_shape.
  assert (entries_0_9 example_puzzle) as H2 by concrete_entries.
  assert (81 < 82)%nat as H3 by lia.
  exact (conj H1 (conj H2 (conj H3
           (sudoku_solver_solved_or_sentinel 82 example_puzzle H1 H2 H3)))).
Defined.

Lemma sudoku_solver_unique_solution_witness :
  shape9 example_puzzle /\ (81 < 82)%nat /\
  completion example_puzzle example_solved /\
  (forall s, completion example_puzzle s -> s = example_solved) /\
  sudoku_solver 82 example_puzzle = Array example_solved.
Proof.
  assert (shape9 example_puzzle) as H1 by concrete_shape.
  assert (81 < 82)%nat as H2 by lia.
  pose proof example_puzzle_completion as H3.
  pose proof example_puzzle_unique as H4.
  exact (conj H1 (conj H2 (conj H3 (conj H4
           (sudoku_solver_unique_solution 82 example_puzzle example_solved H1 H2 H3 H4))))).
Defined.

Lemma search_order_follows_candidate_lists_witness :
  shape9 empty_board /\ entries_0_9 empty_board /\ check_invalid empty_board = false /\
  (81 < 82)%nat /\
  (StronglySorted scan_before (zero_cells empty_board) /\
   solver 82 empty_board (find_spaces empty_board)
   = solver 82 empty_board (Some (zero_cells empty_board))) /\
  (forall b row col, (row < 9)%nat -> (col < 9)%nat ->
     exists l, generate_candidates b row col = Some l /\
       l ≡ₚ filter (fun v => v ∉ values_at b (peers (row, col))) digits) /\
  (forall solution, sudoku_solver 82 empty_board = Array solution -> solution <> failure ->
     completion empty_board solution /\
     forall other, completion empty_board other ->
       reached_before empty_board (zero_cells empty_board) solution other).
Proof.
  assert (shape9 empty_board) as H1 by concrete_shape.
  assert (entries_0_9 empty_board) as H2 by concrete_entries.
  assert (check_invalid empty_board = false) as H3 by (vm_compute; reflexivity).
  assert (81 < 82)%nat as H4 by lia.
  exact (conj H1 (conj H2 (conj H3 (conj H4
           (search_order_follows_candidate_lists 82 empty_board H1 H2 H3 H4))))).
Defined.

Lemma check_invalid_iff_repeat_witness :
  shape9 two_fives /\ entries_0_9 two_fives /\
  (check_invalid two_fives = true <-> has_repeat two_fives) /\
  ((forall p, p ∈ grid -> cell_value two_fives p = 0) -> check_invalid two_fives = false) /\
  (solved two_fives -> check_invalid two_fives = false).
Proof.
  assert (shape9 two_fives) as H1 by concrete_shape.
  assert (entries_0_9 two_fives) as H2 by concrete_entries.
  exact (conj H1 (conj H2 (check_invalid_iff_repeat two_fives H1 H2))).
Defined.

Lemma generate_candidates_complement_witness :
  shape9 five_placed /\ (0 < 9)%nat /\ (5 < 9)%nat /\ get five_placed 0 5 = 0 /\
  exists l, generate_candidates five_placed 0 5 = Some l /\ NoDup l /\
    forall v, v ∈ l <->
      v ∈ digits /\
      ~ exists q, q ∈ row_cells 0 ++ col_cells 5
                      ++ box_cells (0 - 0 mod 3) (5 - 5 mod 3) /\
                  cell_value five_placed q <> 0 /\ cell_value five_placed q = v.
Proof.
  assert (shape9 five_placed) as H1 by concrete_shape.
  assert (0 < 9)%nat as H2 by lia.
  assert (5 < 9)%nat as H3 by lia.
  assert (get five_placed 0 5 = 0) as H4 by reflexivity.
  exact (conj H1 (conj H2 (conj H3 (conj H4
           (generate_candidates_complement five_placed 0 5 H1 H2 H3 H4))))).
Defined.

Lemma sudoku_solver_fixes_solved_witness :
  shape9 example_solved /\ (81 < 82)%nat /\
  ((forall p, p ∈ grid -> cell_value example_solved p <> 0) ->
   check_invalid example_solved = false ->
   sudoku_solver 82 example_solved = Array example_solved) /\
  (forall input, shape9 input -> entries_0_9 input ->
     sudoku_solver 82 input = Array example_solved -> example_solved <> failure ->
     sudoku_solver 82 example_solved = Array example_solved).
Proof.
  assert (shape9 example_solved) as H1 by concrete_shape.
  assert (81 < 82)%nat as H2 by lia.
  exact (conj H1 (conj H2 (sudoku_solver_fixes_solved 82 example_solved H1 H2))).
Defined.

Lemma solver_failure_restores_witness :
  queue_ok dead_end (zero_cells dead_end) /\
  solver 82 dead_end (Some (zero_cells dead_end))
  = Returned RetNone dead_end (zero_cells dead_end) /\
  dead_end = dead_end /\ zero_cells dead_end = zero_cells dead_end /\
  exists x y rest, zero_cells dead_end = (x, y) :: rest /\ get dead_end x y = 0.
Proof.
  assert (queue_ok dead_end (zero_cells dead_end)) as H1
    by (apply zero_cells_queue_ok; concrete_shape).
  assert (solver 82 dead_end (Some (zero_cells dead_end))
          = Returned RetNone dead_end (zero_cells dead_end)) as H2
    by (vm_compute; reflexivity).
  exact (conj H1 (conj H2
           (solver_failure_restores 82 dead_end (zero_cells dead_end)
              dead_end (zero_cells dead_end) H1 H2))).
Defined.

Lemma solver_depth_bounded_witness :
  shape9 empty_board /\ (length (zero_cells empty_board) < 82)%nat /\
  (length (zero_cells empty_board) <= 81)%nat /\
  exists r sudoku' zeroes',
    solver 82 empty_board (find_spaces empty_board) = Returned r sudoku' zeroes'.
Proof.
  assert (shape9 empty_board) as H1 by concrete_shape.
  assert (length (zero_cells empty_board) < 82)%nat as H2 by (vm_compute; lia).
  exact (conj H1 (conj H2 (solver_depth_bounded 82 empty_board H1 H2))).
Defined.

Lemma sudoku_solver_leaves_input_witness :
  ({[1%positive := Heap.Ndarray example_puzzle]} : gmap positive Heap.object) !! 1%positive
  = Some (Heap.Ndarray example_puzzle) /\
  shape9 example_puzzle /\ (length (zero_cells example_puzzle) < 82)%nat /\
  exists out h' g,
    Heap.sudoku_solver 82 {[1%positive := Heap.Ndarray example_puzzle]} 1%positive
    = Heap.Returned (Some out) h' /\
    h' !! 1%positive = Some (Heap.Ndarray example_puzzle) /\
    (forall k o,
       ({[1%positive := Heap.Ndarray example_puzzle]} : gmap positive Heap.object) !! k = Some o ->
       h' !! k = Some o) /\
    ({[1%positive := Heap.Ndarray example_puzzle]} : gmap positive Heap.object) !! out = None /\
    h' !! out = Some (Heap.Ndarray g) /\
    sudoku_solver 82 example_puzzle = Array g.
Proof.
  assert (({[1%positive := Heap.Ndarray example_puzzle]} : gmap positive Heap.object)
            !! 1%positive = Some (Heap.Ndarray example_puzzle)) as H1 by reflexivity.
  assert (shape9 example_puzzle) as H2 by concrete_shape.
  assert (length (zero_cells example_puzzle) < 82)%nat as H3 by (vm_compute; lia).
  exact (conj H1 (conj H2 (conj H3
           (sudoku_solver_leaves_input 82 _ 1%positive example_puzzle H1 H2 H3)))).
Defined.

(** The store-based [sudoku_solver] run on [example_puzzle]: the caller's
    array stays at location 1, the grid of -1 is at 2, the nested list that
    [solver] filled at 3, the emptied queue at 4 and the returned array at
    5. *)
Example heap_run :
  Heap.sudoku_solver 82 {[1%positive := Heap.Ndarray example_puzzle]} 1%positive
  = Heap.Returned (Some 5%positive)
      (<[5%positive := Heap.Ndarray example_solved]>
       (<[4%positive := Heap.Cells []]>
        (<[3%positive := Heap.Nested example_solved]>
         (<[2%positive := Heap.Ndarray failure]>
          {[1%positive := Heap.Ndarray example_puzzle]})))).
Proof. vm_compute. reflexivity. Qed.

(** ** Further properties of the five functions *)

(** X1.  [find_spaces] returns [None] exactly when the board has no zero
    entry; otherwise it returns a non-empty list that holds the coordinates
    of the zero entries and nothing else, each once, in row-major order. *)
Theorem find_spaces_lists_zero_cells sudoku :
  shape9 sudoku ->
  (find_spaces sudoku = None <-> forall r c, (r < 9)%nat -> (c < 9)%nat -> get sudoku r c <> 0) /\
  (forall zeroes, find_spaces sudoku = Some zeroes ->
     zeroes <> [] /\ NoDup zeroes /\ StronglySorted scan_before zeroes /\
     forall r c, (r, c) ∈ zeroes <-> (r < 9)%nat /\ (c < 9)%nat /\ get sudoku r c = 0).
Proof.
  intros _. rewrite find_spaces_zero_cells. split.
  - split.
    + intros Hnone r c Hr Hc Hz.
      assert ((r, c) ∈ zero_cells sudoku) as Hin.
      { apply elem_of_zero_cells. split; [by apply in_grid_elem|exact Hz]. }
      destruct (zero_cells sudoku); [by apply elem_of_nil in Hin|discriminate].
    + intros Hfull. rewrite zero_cells_nil; [reflexivity|].
      intros [r c] [Hr Hc]%in_grid_elem. by apply Hfull.
  - intros zeroes Hsome.
    assert (zeroes = zero_cells sudoku /\ zeroes <> []) as [-> Hne].
    { destruct (zero_cells sudoku); [discriminate|]. by injection Hsome as <-. }
    split; [exact Hne|]. split; [apply NoDup_filter, grid_NoDup|].
    split; [apply zero_cells_scan_order|].
    intros r c. rewrite elem_of_zero_cells, <- in_grid_elem. unfold in_grid, cell_value.
    simpl. tauto.
Qed.

Lemma consistent_place sudoku x y v :
  shape9 sudoku -> (x, y) ∈ grid -> consistent sudoku -> 0 < v ->
  (forall q, q ∈ peers (x, y) -> cell_value sudoku q <> v) ->
  consistent (set_cell sudoku x y v).
Proof.
  intros Hs Hin Hcons Hv Hfree p q Hp Hq Hne Hrel Hpos.
  assert (cell_value (set_cell sudoku x y v) (x, y) = v) as Hnew
    by (by apply (cell_value_set_eq sudoku (x, y))).
  destruct (decide (p = (x, y))) as [->|Hp'], (decide (q = (x, y))) as [->|Hq'].
  - exfalso. apply Hne. reflexivity.
  - rewrite Hnew, (cell_value_set_ne _ _ _ _ q) by exact Hq'. intros Heq.
    apply (Hfree q); [|by symmetry]. by apply peers_related.
  - rewrite Hnew, (cell_value_set_ne _ _ _ _ p) by exact Hp'. intros Heq.
    apply (Hfree p); [|exact Heq]. apply peers_related; [exact Hin|exact Hp|].
    by apply related_sym.
  - rewrite !cell_value_set_ne by assumption.
    rewrite cell_value_set_ne in Hpos by assumption. by apply Hcons.
Qed.

(** X2.  On a board the validator accepts, a digit is among the candidates
    of an empty cell exactly when the board with that digit written in the
    cell is still accepted by the validator. *)
Theorem candidate_iff_placement_valid sudoku row col l d :
  shape9 sudoku -> (row < 9)%nat -> (col < 9)%nat ->
  check_invalid sudoku = false -> get sudoku row col = 0 ->
  generate_candidates sudoku row col = Some l -> 1 <= d <= 9 ->
  d ∈ l <-> check_invalid (set_cell sudoku row col d) = false.
Proof.
  intros Hs Hrow Hcol Hvalid Hzero Hl Hd.
  assert ((row, col) ∈ grid) as Hin by (apply in_grid_elem; split; assumption).
  rewrite (candidate_fits sudoku row col l d Hin Hl). clear Hl.
  rewrite check_invalid_consistent. apply check_invalid_consistent in Hvalid.
  split.
  - intros [_ Hfree]. apply consistent_place; [exact Hs|exact Hin|exact Hvalid|lia|exact Hfree].
  - intros Hcons. split; [exact Hd|]. intros q Hq Heq.
    assert (q ∈ grid) as Hqg by (by apply (peers_in_grid (row, col))).
    assert (q <> (row, col)) as Hne.
    { intros ->. unfold cell_value in Heq. simpl in Heq. lia. }
    apply (Hcons (row, col) q Hin Hqg); [by apply not_eq_sym| | |].
    + by apply peers_related.
    + rewrite (cell_value_set_eq sudoku (row, col)) by assumption. lia.
    + rewrite (cell_value_set_eq sudoku (row, col)) by assumption.
      rewrite cell_value_set_ne by exact Hne. by symmetry.
Qed.

(** X3.  A board the validator rejects has no completion: returning the
    grid of -1 without searching loses no solution. *)
Theorem invalid_board_no_completion sudoku :
  check_invalid sudoku = true -> forall solution, ~ completion sudoku solution.
Proof.
  intros Hinv solution Hcompl.
  apply completion_consistent, check_invalid_consistent in Hcompl. congruence.
Qed.

(** X4.  Writing a value into an empty cell never repairs a board: what the
    validator rejects it still rejects afterwards. *)
Theorem check_invalid_stays_invalid sudoku row col v :
  shape9 sudoku -> (row < 9)%nat -> (col < 9)%nat ->
  get sudoku row col = 0 -> check_invalid sudoku = true ->
  check_invalid (set_cell sudoku row col v) = true.
Proof.
  intros Hs Hrow Hcol Hzero Hinv.
  destruct (check_invalid (set_cell sudoku row col v)) eqn:Hafter; [reflexivity|].
  exfalso. apply check_invalid_consistent in Hafter.
  assert (consistent sudoku) as Hcons; [|apply check_invalid_consistent in Hcons; congruence].
  intros p q Hp Hq Hne Hrel Hpos.
  assert (p <> (row, col)) as Hp'.
  { intros ->. unfold cell_value in Hpos. simpl in Hpos. lia. }
  destruct (decide (q = (row, col))) as [->|Hq'].
  - unfold cell_value at 2. simpl. lia.
  - specialize (Hafter p q Hp Hq Hne Hrel).
    rewrite !cell_value_set_ne in Hafter by assumption. by apply Hafter.
Qed.

Lemma solver_success_queue limit :
  forall sudoku zeroes solution zeroes',
  queue_ok sudoku zeroes ->
  solver limit sudoku (Some zeroes) = Returned RetSudoku solution zeroes' ->
  zeroes' = [].
Proof.
  induction limit as [|limit IH]; intros sudoku zeroes solution zeroes' Hok Hrun; [done|].
  destruct zeroes as [|[x y] rest].
  { simpl in Hrun. by injection Hrun as _ <-. }
  destruct (solver_step limit sudoku x y rest) as (l & _ & Hstep).
  rewrite Hstep in Hrun. clear Hstep.
  pose proof (for_value_inv (fun s z => solver limit s (Some z)) x y sudoku rest l sudoku) as Hinv.
  rewrite Hrun in Hinv. destruct Hinv as (tried & v & later & _ & _ & Hv).
  - exists (get sudoku x y). symmetry.
    destruct Hok as (Hs & _ & Hq). destruct (Hq (x, y)) as [[Hx Hy]%in_grid_elem _]; [by left|].
    by apply set_cell_get.
  - intros u s' z' _. apply solver_restores. by apply queue_ok_step.
  - revert Hv. apply IH. by apply (queue_ok_step _ _ _ _ v Hok).
Qed.

(** X5.  Called on a valid board with entries in 0..9 and the queue of its
    empty cells, at any stage of the search, [solver] decides whether the
    board can be completed: it returns the board, now a completion of what
    it was given, with the queue emptied; or it returns [None], the board
    has no completion, and board and queue are as they were. *)
Theorem solver_decides sudoku zeroes limit :
  search_state sudoku zeroes -> (length zeroes < limit)%nat ->
  (exists solution,
     solver limit sudoku (Some zeroes) = Returned RetSudoku solution [] /\
     completion sudoku solution) \/
  (solver limit sudoku (Some zeroes) = Returned RetNone sudoku zeroes /\
   forall solution, ~ completion sudoku solution).
Proof.
  intros Hst Hlimit. pose proof (search_state_queue_ok _ _ Hst) as Hok.
  destruct (solver limit sudoku (Some zeroes)) as [|[] b' q'] eqn:Hrun.
  - exfalso. revert Hrun. by apply solver_returns.
  - right. destruct (solver_restores _ _ _ _ _ Hok Hrun) as [-> ->].
    split; [reflexivity|]. by eapply solver_complete.
  - left. exists b'. rewrite (solver_success_queue _ _ _ _ _ Hok Hrun).
    split; [reflexivity|]. by eapply solver_sound.
Qed.

(** X6.  Over the store, [solver] writes to the two objects it was given and
    to nothing else, creates no object, and what it returns is [None] or the
    very reference [sudoku] it received; the two objects end up holding the
    board and the queue computed by the state-passing [solver]. *)
Theorem heap_solver_frame limit (h : gmap positive Heap.object) ls lz b q :
  ls <> lz -> h !! ls = Some (Heap.Nested b) -> h !! lz = Some (Heap.Cells q) ->
  queue_ok b q -> (length q < limit)%nat ->
  exists r b' q' h',
    solver limit b (Some q) = Returned r b' q' /\
    Heap.solver limit h ls (Some lz)
    = Heap.Returned (match r with RetNone => None | RetSudoku => Some ls end) h' /\
    h' !! ls = Some (Heap.Nested b') /\ h' !! lz = Some (Heap.Cells q') /\
    (forall k, k <> ls -> k <> lz -> h' !! k = h !! k) /\
    dom h' = dom h.
Proof.
  intros Hne Hls Hlz Hok Hlimit.
  assert (h = <[lz := Heap.Cells q]> (<[ls := Heap.Nested b]> h)) as Hh.
  { symmetry. rewrite (insert_id h ls) by exact Hls. by apply insert_id. }
  destruct (solver limit b (Some q)) as [|r b' q'] eqn:Hrun.
  { exfalso. revert Hrun. by apply solver_returns. }
  exists r, b', q', (<[lz := Heap.Cells q']> (<[ls := Heap.Nested b']> h)).
  split; [reflexivity|]. split.
  { rewrite Hh at 1. rewrite solver_sim by exact Hne. by rewrite Hrun. }
  split; [by rewrite lookup_insert_ne, lookup_insert_eq|].
  split; [by rewrite lookup_insert_eq|]. split.
  - intros k Hks Hkz. by rewrite !lookup_insert_ne.
  - rewrite !dom_insert_L.
    assert (ls ∈ dom h) by (apply elem_of_dom; eauto).
    assert (lz ∈ dom h) by (apply elem_of_dom; eauto).
    set_solver.
Qed.

Lemma added_digits_ascending :
  Forall (fun l => (5 <= length l)%nat ->
            PySet.set_iter (foldl PySet.set_add_entry
                              (PySet.new_table PySet.PySet_MINSIZE) l) = l)
         (sublists digits).
Proof. by_computation. Qed.

Lemma difference_digits_ascending (other : gset Z) :
  (5 <= length (filter (fun key => key ∉ other) digits))%nat ->
  PySet.difference_list (PySet.set_of_list digits) other
  = filter (fun key => key ∉ other) digits.
Proof.
  intros Hlen. unfold PySet.difference_list.
  assert (PySet.set_iter (PySet.set_of_list digits) = digits) as Hiter
    by (vm_compute; reflexivity).
  assert (PySet.set_iter (PySet.set_copy (PySet.set_of_list digits)) = digits) as Hcopy
    by (vm_compute; reflexivity).
  case_decide.
  - by rewrite Hcopy.
  - rewrite Hiter, foldl_add_filter.
    pose proof added_digits_ascending as Hall. rewrite Forall_forall in Hall.
    by apply (Hall _ (filter_sublists (fun key => key ∉ other) digits)).
Qed.

Lemma generate_candidates_peers sudoku row col :
  generate_candidates sudoku row col
  = Some (PySet.difference_list (PySet.set_of_list digits)
            (list_to_set (values_at sudoku (peers (row, col))))).
Proof.
  unfold generate_candidates. do 2 f_equal.
  pose proof (box_scan row col) as Hbox.
  unfold peers, values_at. cbn [fst snd].
  rewrite !fmap_app, !filter_app, !list_to_set_app_L.
  rewrite <- Hbox. rewrite <- (assoc_L (∪)). reflexivity.
Qed.

(** X7.  When at least five digits remain possible for a cell, the list
    returned by [generate_candidates] is in ascending order: the set that
    holds them has grown to a table in which each digit has its own slot. *)
Theorem candidates_ascending_from_five sudoku row col l :
  (row < 9)%nat -> (col < 9)%nat ->
  generate_candidates sudoku row col = Some l -> (5 <= length l)%nat ->
  StronglySorted Z.lt l.
Proof.
  intros _ _ Hl Hlen.
  rewrite (generate_candidates_peers sudoku row col) in Hl. apply (inj Some) in Hl.
  subst l. rewrite difference_digits_ascending.
  2:{ rewrite <- (Permutation_length (difference_digits_perm _)). exact Hlen. }
  apply StronglySorted_filter. unfold digits. by_computation.
Qed.

(** ** The further properties at given boards *)

Lemma find_spaces_lists_zero_cells_witness :
  shape9 example_puzzle /\
  (find_spaces example_puzzle = None <->
   forall r c, (r < 9)%nat -> (c < 9)%nat -> get example_puzzle r c <> 0) /\
  (forall zeroes, find_spaces example_puzzle = Some zeroes ->
     zeroes <> [] /\ NoDup zeroes /\ StronglySorted scan_before zeroes /\
     forall r c, (r, c) ∈ zeroes <->
       (r < 9)%nat /\ (c < 9)%nat /\ get example_puzzle r c = 0).
Proof.
  assert (shape9 example_puzzle) as H1 by concrete_shape.
  exact (conj H1 (find_spaces_lists_zero_cells example_puzzle H1)).
Defined.

Lemma candidate_iff_placement_valid_witness :
  shape9 five_placed /\ (0 < 9)%nat /\ (5 < 9)%nat /\
  check_invalid five_placed = false /\ get five_placed 0 5 = 0 /\
  generate_candidates five_placed 0 5 = Some [8; 9; 6; 7] /\ 1 <= 8 <= 9 /\
  (8 ∈ [8; 9; 6; 7] <-> check_invalid (set_cell five_placed 0 5 8) = false).
Proof.
  assert (shape9 five_placed) as H1 by concrete_shape.
  assert (0 < 9)%nat as H2 by lia.
  assert (5 < 9)%nat as H3 by lia.
  assert (1 <= 8 <= 9) as H7 by lia.
  assert (check_invalid five_placed = false) as H4 by (vm_compute; reflexivity).
  assert (get five_placed 0 5 = 0) as H5 by reflexivity.
  assert (generate_candidates five_placed 0 5 = Some [8; 9; 6; 7]) as H6
    by (vm_compute; reflexivity).
  exact (conj H1 (conj H2 (conj H3 (conj H4 (conj H5 (conj H6 (conj H7
           (candidate_iff_placement_valid five_placed 0 5 [8; 9; 6; 7] 8
              H1 H2 H3 H4 H5 H6 H7)))))))).
Defined.

Lemma invalid_board_no_completion_witness :
  check_invalid two_fives = true /\ forall solution, ~ completion two_fives solution.
Proof.
  assert (check_invalid two_fives = true) as H1 by (vm_compute; reflexivity).
  exact (conj H1 (invalid_board_no_completion two_fives H1)).
Defined.

Lemma check_invalid_stays_invalid_witness :
  shape9 two_fives /\ (3 < 9)%nat /\ (4 < 9)%nat /\
  get two_fives 3 4 = 0 /\ check_invalid two_fives = true /\
  check_invalid (set_cell two_fives 3 4 7) = true.
Proof.
  assert (shape9 two_fives) as H1 by concrete_shape.
  assert (3 < 9)%nat as H2 by lia.
  assert (4 < 9)%nat as H3 by lia.
  assert (get two_fives 3 4 = 0) as H4 by reflexivity.
  assert (check_invalid two_fives = true) as H5 by (vm_compute; reflexivity).
  exact (conj H1 (conj H2 (conj H3 (conj H4 (conj H5
           (check_invalid_stays_invalid two_fives 3 4 7 H1 H2 H3 H4 H5)))))).
Defined.

Lemma solver_decides_witness :
  search_state dead_end (zero_cells dead_end) /\
  (length (zero_cells dead_end) < 82)%nat /\
  ((exists solution,
      solver 82 dead_end (Some (zero_cells dead_end)) = Returned RetSudoku solution [] /\
      completion dead_end solution) \/
   (solver 82 dead_end (Some (zero_cells dead_end))
    = Returned RetNone dead_end (zero_cells dead_end) /\
    forall solution, ~ completion dead_end solution)).
Proof.
  assert (search_state dead_end (zero_cells dead_end)) as H1.
  { apply initial_search_state; [concrete_shape|concrete_entries|vm_compute; reflexivity]. }
  assert (length (zero_cells dead_end) < 82)%nat as H2 by (vm_compute; lia).
  exact (conj H1 (conj H2 (solver_decides dead_end (zero_cells dead_end) 82 H1 H2))).
Defined.

Lemma heap_solver_frame_witness :
  1%positive <> 2%positive /\
  (<[2%positive := Heap.Cells [(0%nat, 0%nat)]]>
     {[1%positive := Heap.Nested example_puzzle]} : gmap positive Heap.object) !! 1%positive
  = Some (Heap.Nested example_puzzle) /\
  (<[2%positive := Heap.Cells [(0%nat, 0%nat)]]>
     {[1%positive := Heap.Nested example_puzzle]} : gmap positive Heap.object) !! 2%positive
  = Some (Heap.Cells [(0%nat, 0%nat)]) /\
  queue_ok example_puzzle [(0%nat, 0%nat)] /\
  (length [(0%nat, 0%nat)] < 82)%nat /\
  exists r b' q' h',
    solver 82 example_puzzle (Some [(0%nat, 0%nat)]) = Returned r b' q' /\
    Heap.solver 82 (<[2%positive := Heap.Cells [(0%nat, 0%nat)]]>
                      {[1%positive := Heap.Nested example_puzzle]}) 1%positive (Some 2%positive)
    = Heap.Returned (match r with RetNone => None | RetSudoku => Some 1%positive end) h' /\
    h' !! 1%positive = Some (Heap.Nested b') /\ h' !! 2%positive = Some (Heap.Cells q') /\
    (forall k, k <> 1%positive -> k <> 2%positive ->
       h' !! k = (<[2%positive := Heap.Cells [(0%nat, 0%nat)]]>
                    {[1%positive := Heap.Nested example_puzzle]}
                  : gmap positive Heap.object) !! k) /\
    dom h' = dom (<[2%positive := Heap.Cells [(0%nat, 0%nat)]]>
                    {[1%positive := Heap.Nested example_puzzle]}
                  : gmap positive Heap.object).
Proof.
  assert (1%positive <> 2%positive) as H1 by lia.
  assert ((<[2%positive := Heap.Cells [(0%nat, 0%nat)]]>
             {[1%positive := Heap.Nested example_puzzle]} : gmap positive Heap.object)
            !! 1%positive = Some (Heap.Nested example_puzzle)) as H2 by reflexivity.
  assert ((<[2%positive := Heap.Cells [(0%nat, 0%nat)]]>
             {[1%positive := Heap.Nested example_puzzle]} : gmap positive Heap.object)
            !! 2%positive = Some (Heap.Cells [(0%nat, 0%nat)])) as H3 by reflexivity.
  assert (queue_ok example_puzzle [(0%nat, 0%nat)]) as H4.
  { change [(0%nat, 0%nat)] with (zero_cells example_puzzle).
    apply zero_cells_queue_ok. concrete_shape. }
  assert (length [(0%nat, 0%nat)] < 82)%nat as H5 by (simpl; lia).
  exact (conj H1 (conj H2 (conj H3 (conj H4 (conj H5
           (heap_solver_frame 82 _ 1%positive 2%positive example_puzzle [(0%nat, 0%nat)]
              H1 H2 H3 H4 H5)))))).
Defined.

Lemma candidates_ascending_from_five_witness :
  (0 < 9)%nat /\ (0 < 9)%nat /\
  generate_candidates empty_board 0 0 = Some [1; 2; 3; 4; 5; 6; 7; 8; 9] /\
  (5 <= length [1; 2; 3; 4; 5; 6; 7; 8; 9])%nat /\
  StronglySorted Z.lt [1; 2; 3; 4; 5; 6; 7; 8; 9].
Proof.
  assert (0 < 9)%nat as H1 by lia.
  assert (5 <= length [1; 2; 3; 4; 5; 6; 7; 8; 9])%nat as H3 by (simpl; lia).
  assert (generate_candidates empty_board 0 0 = Some [1; 2; 3; 4; 5; 6; 7; 8; 9]) as H2
    by (vm_compute; reflexivity).
  exact (conj H1 (conj H1 (conj H2 (conj H3
           (candidates_ascending_from_five empty_board 0 0 _ H1 H1 H2 H3))))).
Defined.
